(** * Matching engine of build_playlist.py

    A shallow embedding of the normalisation helpers, of the rapidfuzz
    scorers they are used with, of [dedupe_entries] and of [best_match].

    Text is modelled as [string] (sequences of 8-bit characters); the
    development is faithful for ASCII text, on which [unidecode] is the
    identity and [str.lower] only maps A-Z to a-z. Similarity scores, floats
    in Python, are exact rationals ([Q]) kept in reduced form with [Qred]. *)

From Stdlib Require Import Ascii String List Bool Arith ZArith QArith Lia Lqa Sorting Permutation.
Import ListNotations.

Open Scope nat_scope.
Open Scope string_scope.
Open Scope bool_scope.

(** ** Characters *)

Definition code (c : ascii) : nat := nat_of_ascii c.

(** [str.isspace] / [re] [\s] on ASCII: \t \n \v \f \r, \x1c-\x1f and space. *)
Definition is_space (c : ascii) : bool :=
  let n := code c in
  (Nat.leb 9 n && Nat.leb n 13) || (Nat.leb 28 n && Nat.leb n 31) || Nat.eqb n 32.

Definition is_upper (c : ascii) : bool :=
  let n := code c in Nat.leb 65 n && Nat.leb n 90.

Definition is_digit (c : ascii) : bool :=
  let n := code c in Nat.leb 48 n && Nat.leb n 57.

Definition to_lower (c : ascii) : ascii :=
  if is_upper c then ascii_of_nat (code c + 32) else c.

Fixpoint in_chars (c : ascii) (cs : string) : bool :=
  match cs with
  | EmptyString => false
  | String d r => Ascii.eqb c d || in_chars c r
  end.

(** The punctuation class of [normalize_text]: hyphen, underscore,
    apostrophe, double quote (code 34), parentheses, comma, exclamation mark,
    slash, colon, semicolon and square brackets. *)
Definition punct_chars : string :=
  String "-" (String "_" (String "'" (String (ascii_of_nat 34) "(),!/:;[]"))).

Definition is_punct (c : ascii) : bool := in_chars c punct_chars.

(** ** String helpers (Python [str] methods) *)

Fixpoint smap (f : ascii -> string) (s : string) : string :=
  match s with
  | EmptyString => EmptyString
  | String c r => f c ++ smap f r
  end.

Definition lower (s : string) : string :=
  smap (fun c => String (to_lower c) EmptyString) s.

(** [s.replace(ch, rep)] for a one-character pattern. *)
Definition replace_char (ch : ascii) (rep : string) (s : string) : string :=
  smap (fun c => if Ascii.eqb c ch then rep else String c EmptyString) s.

Fixpoint lstrip (s : string) : string :=
  match s with
  | EmptyString => EmptyString
  | String c r => if is_space c then lstrip r else s
  end.

Fixpoint rstrip (s : string) : string :=
  match s with
  | EmptyString => EmptyString
  | String c r =>
      let r' := rstrip r in
      if is_space c && String.eqb r' EmptyString then EmptyString
      else String c r'
  end.

Definition strip (s : string) : string := rstrip (lstrip s).

(** ASCII text: [unidecode] leaves it unchanged. *)
Definition unidecode (s : string) : string := s.

(** re.sub of the pattern [P]+ by [rep]: every maximal run of characters satisfying
    [p] is replaced by [rep]; [prev] records that the previous character
    belonged to a run. *)
Fixpoint sub_runs (p : ascii -> bool) (rep : string) (prev : bool) (s : string)
  : string :=
  match s with
  | EmptyString => EmptyString
  | String c r =>
      if p c then (if prev then sub_runs p rep true r
                   else rep ++ sub_runs p rep true r)
      else String c (sub_runs p rep false r)
  end.

Fixpoint drop_prefix (w s : string) : option string :=
  match w, s with
  | EmptyString, _ => Some s
  | String a w', String b s' => if Ascii.eqb a b then drop_prefix w' s' else None
  | String _ _, EmptyString => None
  end.

Definition articles : list string :=
  ["the"; "a"; "an"; "le"; "la"; "les"; "el"; "los"; "las"; "der"; "die"; "das"].

(** Removal of the pattern ^(?:the|a|...|das)\s+: the alternatives are tried in
    order, the first one followed by whitespace is removed together with all
    of that whitespace (greedy [\s+]). *)
Fixpoint strip_article_from (arts : list string) (s : string) : string :=
  match arts with
  | [] => s
  | w :: ws =>
      match drop_prefix w s with
      | Some (String c r) =>
          if is_space c then lstrip r else strip_article_from ws s
      | _ => strip_article_from ws s
      end
  end.

Definition strip_article (s : string) : string := strip_article_from articles s.

(** Removal of the pattern ^l\s*' (French elision). *)
Definition strip_elision (s : string) : string :=
  match s with
  | String c r =>
      if Ascii.eqb c "l" then
        match lstrip r with
        | String q r' => if Ascii.eqb q "'" then r' else s
        | EmptyString => s
        end
      else s
  | EmptyString => s
  end.

(** ** [normalize_text] *)
Definition normalize_text (s0 : string) : string :=
  let s := lower (strip s0) in
  let s := unidecode s in
  let s := replace_char "&" " and " s in
  let s := replace_char "+" " " s in
  let s := replace_char "/" " and " s in
  let s := replace_char "." "" s in
  let s := strip_article s in
  let s := strip_elision s in
  let s := sub_runs is_punct " " false s in
  strip (sub_runs is_space " " false s).

(** ** [normalize_album_for_match] *)

(** Four ASCII digits at the head of [s], and what follows them. *)
Definition take4digits (s : string) : option string :=
  match s with
  | String a (String b (String c (String d r))) =>
      if is_digit a && is_digit b && is_digit c && is_digit d then Some r
      else None
  | _ => None
  end.

(** Removal of one to three leading groups of four digits, each followed by optional whitespace: up to [k] greedy repetitions. *)
Fixpoint strip_year_tokens (k : nat) (s : string) : string :=
  match k with
  | O => s
  | S k' =>
      match take4digits s with
      | Some r => strip_year_tokens k' (lstrip r)
      | None => s
      end
  end.

(** Removal of the pattern ^\d{4}\s+. *)
Definition strip_one_year (s : string) : string :=
  match take4digits s with
  | Some (String c r) => if is_space c then lstrip r else s
  | _ => s
  end.

Definition normalize_album_for_match (s : string) (for_candidate : bool) : string :=
  let s_norm := normalize_text s in
  let s_norm := if for_candidate then strip_year_tokens 3 s_norm
                else strip_one_year s_norm in
  let s_norm := strip_article s_norm in
  let s_norm := strip_elision s_norm in
  strip s_norm.

(** ** [normalize_artist] *)

(** The body [[^^)\]]+[\)\]]\s*$] of the qualifier pattern, after its
    opening bracket; [started] is set once a body character was read. *)
Fixpoint qual_body (started : bool) (s : string) : bool :=
  match s with
  | EmptyString => false
  | String c r =>
      if Ascii.eqb c ")" || Ascii.eqb c "]" then
        started && String.eqb (lstrip r) EmptyString
      else if Ascii.eqb c "^" then false
      else qual_body true r
  end.

(** Does [\s*[\(\[][^^)\]]+[\)\]]\s*$] match the whole of [s]? *)
Definition tail_qual (s : string) : bool :=
  match lstrip s with
  | String o r => (Ascii.eqb o "(" || Ascii.eqb o "[") && qual_body false r
  | EmptyString => false
  end.

(** Removal of the pattern \s*[\(\[][^^)\]]+[\)\]]\s*$: the leftmost match is
    removed (it runs to the end of the string). *)
Fixpoint strip_qualifier (s : string) : string :=
  if tail_qual s then EmptyString
  else match s with
       | EmptyString => EmptyString
       | String c r => String c (strip_qualifier r)
       end.

Definition normalize_artist (s : string) : string :=
  if String.eqb s EmptyString then EmptyString
  else normalize_text (strip (strip_qualifier s)).

(** ** [resolve_self_titled] *)

(** re.fullmatch of the pattern s\s*/\s*t|s\.?\s*t\.? on [token]. *)
Definition is_self_titled_token (token : string) : bool :=
  match token with
  | String s0 r =>
      Ascii.eqb s0 "s" &&
      ((match lstrip r with
        | String sl r2 => Ascii.eqb sl "/" && String.eqb (lstrip r2) "t"
        | EmptyString => false
        end)
       ||
       (let r1 := match r with
                  | String d r' => if Ascii.eqb d "." then r' else r
                  | EmptyString => r
                  end in
        match lstrip r1 with
        | String t r3 => Ascii.eqb t "t" && (String.eqb r3 "" || String.eqb r3 ".")
        | EmptyString => false
        end))
  | EmptyString => false
  end.

Definition resolve_self_titled (album artist : string) : string :=
  let token := lower (strip album) in
  if is_self_titled_token token then strip artist else album.

(** ** [extract_years] *)

(** Contents of the [\[(.*?)\]] matches of [re.finditer], in order; [cur]
    holds the text read since an opening bracket ([.] does not match a
    newline, so a newline abandons the segment). *)
Fixpoint bracket_segments (cur : option string) (s : string) : list string :=
  match s with
  | EmptyString => []
  | String c r =>
      match cur with
      | None =>
          if Ascii.eqb c "[" then bracket_segments (Some EmptyString) r
          else bracket_segments None r
      | Some acc =>
          if Ascii.eqb c "]" then acc :: bracket_segments None r
          else if Ascii.eqb c (ascii_of_nat 10) then bracket_segments None r
          else bracket_segments (Some (acc ++ String c EmptyString)) r
      end
  end.

Definition digit_val (c : ascii) : Z := Z.of_nat (code c - 48).

(** [(19\d{2}|20\d{2})(?!\d)] at the head of [s]. *)
Definition year_at (s : string) : option Z :=
  match s with
  | String a (String b (String c (String d r))) =>
      if ((Ascii.eqb a "1" && Ascii.eqb b "9") || (Ascii.eqb a "2" && Ascii.eqb b "0"))
         && is_digit c && is_digit d
         && negb (match r with String e _ => is_digit e | EmptyString => false end)
      then Some (1000 * digit_val a + 100 * digit_val b + 10 * digit_val c + digit_val d)%Z
      else None
  | _ => None
  end.

(** re.findall of the pattern (?<!\d)(19\d{2}|20\d{2})(?!\d) as integers;
    [prev_digit] is the lookbehind. *)
Fixpoint years_in (prev_digit : bool) (s : string) : list Z :=
  match s with
  | EmptyString => []
  | String a r =>
      (if prev_digit then []
       else match year_at s with Some y => [y] | None => [] end)
      ++ years_in (is_digit a) r
  end.

(** [for y in ys: if y not in out: out.append(y)]. *)
Fixpoint add_new (out : list Z) (ys : list Z) : list Z :=
  match ys with
  | [] => out
  | y :: ys' =>
      add_new (if existsb (Z.eqb y) out then out else out ++ [y]) ys'
  end.

Definition extract_years (s : string) : list Z :=
  if String.eqb s EmptyString then []
  else
    let out := fold_left (fun out seg => add_new out (years_in false seg))
                         (bracket_segments None s) [] in
    add_new out (years_in false s).

(** ** rapidfuzz scorers

    [fuzz.ratio], [fuzz.token_sort_ratio] and [fuzz.token_set_ratio] with
    their default arguments (no processor, no score cutoff), as rapidfuzz
    computes them from the Indel distance (insertions and deletions only):
    [len a + len b - 2 * LCS(a, b)]. *)

Module RapidFuzz.

(** [str.split()]: maximal runs of non-whitespace characters. *)
Fixpoint split_aux (cur : string) (s : string) : list string :=
  match s with
  | EmptyString => if String.eqb cur EmptyString then [] else [cur]
  | String c r =>
      if is_space c then
        (if String.eqb cur EmptyString then split_aux EmptyString r
         else cur :: split_aux EmptyString r)
      else split_aux (cur ++ String c EmptyString) r
  end.

Definition split (s : string) : list string := split_aux EmptyString s.

(** Code-point order of Python strings. *)
Fixpoint str_ltb (a b : string) : bool :=
  match a, b with
  | EmptyString, EmptyString => false
  | EmptyString, String _ _ => true
  | String _ _, EmptyString => false
  | String x a', String y b' =>
      if Nat.ltb (code x) (code y) then true
      else if Nat.eqb (code x) (code y) then str_ltb a' b' else false
  end.

Fixpoint insert_sorted (x : string) (l : list string) : list string :=
  match l with
  | [] => [x]
  | y :: l' => if str_ltb x y then x :: l else y :: insert_sorted x l'
  end.

Definition sorted (l : list string) : list string := fold_right insert_sorted [] l.

Definition join (l : list string) : string := String.concat " " l.

Definition mem (x : string) (l : list string) : bool := existsb (String.eqb x) l.

(** [set(l)], as a duplicate-free list. *)
Fixpoint to_set (l : list string) : list string :=
  match l with
  | [] => []
  | x :: l' => let r := to_set l' in if mem x r then r else x :: r
  end.

(** One row of the LCS table: [old] is the row of the previous character of
    the first string, [left] the entry just computed. *)
Fixpoint next_row (c : ascii) (b : string) (old : list nat) (left : nat) : list nat :=
  match b, old with
  | String d b', o0 :: ((o1 :: _) as old') =>
      let v := if Ascii.eqb c d then S o0 else Nat.max o1 left in
      v :: next_row c b' old' v
  | _, _ => []
  end.

Fixpoint lcs_rows (a b : string) (row : list nat) : list nat :=
  match a with
  | EmptyString => row
  | String c a' => lcs_rows a' b (0 :: next_row c b row 0)
  end.

Definition lcs (a b : string) : nat :=
  last (lcs_rows a b (repeat 0 (S (String.length b)))) 0.

Definition indel_distance (a b : string) : nat :=
  String.length a + String.length b - 2 * lcs a b.

(** [norm_distance<100>(dist, lensum)]. *)
Definition norm_distance (dist lensum : nat) : Q :=
  if Nat.eqb lensum 0 then 100%Q
  else Qred (100 - 100 * inject_Z (Z.of_nat dist) / inject_Z (Z.of_nat lensum))%Q.

Definition ratio (a b : string) : Q :=
  norm_distance (indel_distance a b) (String.length a + String.length b).

Definition qmax (x y : Q) : Q := if Qle_bool x y then y else x.

Definition token_sort_ratio (a b : string) : Q :=
  ratio (join (sorted (split a))) (join (sorted (split b))).

Definition token_set_ratio (s1 s2 : string) : Q :=
  let tokens_a := to_set (split s1) in
  let tokens_b := to_set (split s2) in
  if (match tokens_a with [] => true | _ => false end)
     || (match tokens_b with [] => true | _ => false end) then 0%Q
  else
    let intersect := filter (fun t => mem t tokens_b) tokens_a in
    let diff_ab := filter (fun t => negb (mem t tokens_b)) tokens_a in
    let diff_ba := filter (fun t => negb (mem t tokens_a)) tokens_b in
    if negb (match intersect with [] => true | _ => false end)
       && ((match diff_ab with [] => true | _ => false end)
           || (match diff_ba with [] => true | _ => false end))
    then 100%Q
    else
      let diff_ab_joined := join (sorted diff_ab) in
      let diff_ba_joined := join (sorted diff_ba) in
      let ab_len := String.length diff_ab_joined in
      let ba_len := String.length diff_ba_joined in
      let sect_len := String.length (join intersect) in
      let nz := if Nat.eqb sect_len 0 then 0 else 1 in
      let sect_ab_len := sect_len + nz + ab_len in
      let sect_ba_len := sect_len + nz + ba_len in
      let result := norm_distance (indel_distance diff_ab_joined diff_ba_joined)
                                  (sect_ab_len + sect_ba_len) in
      if Nat.eqb sect_len 0 then result
      else
        let sect_ab_ratio := norm_distance (nz + ab_len) (sect_len + sect_ab_len) in
        let sect_ba_ratio := norm_distance (nz + ba_len) (sect_len + sect_ba_len) in
        qmax result (qmax sect_ab_ratio sect_ba_ratio).

End RapidFuzz.

Import RapidFuzz.

(** ** [best_match] *)

(** A library candidate: the [root], [artist] and [album] keys of the
    candidate dictionary (the file lists play no part in matching). *)
Record candidate := mkCandidate { root : string; artist : string; album : string }.

Fixpoint is_substring (needle hay : string) : bool :=
  match drop_prefix needle hay with
  | Some _ => true
  | None => match hay with
            | EmptyString => false
            | String _ r => is_substring needle r
            end
  end.

Definition contains_char (c : ascii) (s : string) : bool := in_chars c s.

(** [("+" in a) or ("&" in a) or ("/" in a) or (" and " in a.lower())]. *)
Definition has_collab_marker (a : string) : bool :=
  contains_char "+" a || contains_char "&" a || contains_char "/" a
  || is_substring " and " (lower a).

(** [str.isdigit()] on ASCII. *)
Definition str_isdigit (s : string) : bool :=
  negb (String.eqb s EmptyString) && forallb is_digit (list_ascii_of_string s).

(** [int(s)] for a decimal string: surrounding whitespace, an optional sign
    and single underscores between digits are accepted; [None] stands for
    the [ValueError] that [best_match] catches. *)
Fixpoint digits_acc (acc : Z) (after_us : bool) (s : string) : option Z :=
  match s with
  | EmptyString => if after_us then None else Some acc
  | String c r =>
      if is_digit c then digits_acc (10 * acc + digit_val c)%Z false r
      else if Ascii.eqb c "_" && negb after_us then digits_acc acc true r
      else None
  end.

Definition parse_unsigned (s : string) : option Z :=
  match s with
  | String d r => if is_digit d then digits_acc (digit_val d) false r else None
  | EmptyString => None
  end.

Definition parse_int (s : string) : option Z :=
  let t := strip s in
  match t with
  | String c r =>
      if Ascii.eqb c "-" then option_map Z.opp (parse_unsigned r)
      else if Ascii.eqb c "+" then parse_unsigned r
      else parse_unsigned t
  | EmptyString => None
  end.

Definition allowed_extras : list string :=
  ["paraphernalia"; "pepo"; "mtoto"; "wolf";
   "group"; "band"; "ensemble"; "combination"; "combo";
   "collective"; "project"; "orchestra"; "quartet"; "quintet";
   "sextet"; "trio"; "duo"; "company";
   "and"; "with"; "feat"; "featuring";
   "whole"; "world"].

Definition allowed_album_extras : list string :=
  ["deluxe"; "remaster"; "remastered"; "edition"; "expanded"; "mono"; "stereo";
   "complete"; "collection"; "anthology"].

Definition subset (a b : list string) : bool := forallb (fun t => mem t b) a.

Definition set_diff (a b : list string) : list string :=
  filter (fun t => negb (mem t b)) a.

Definition is_nil {A} (l : list A) : bool := match l with [] => true | _ => false end.

Definition list_str_eqb (a b : list string) : bool :=
  (Nat.eqb (length a) (length b)) && forallb (fun p => String.eqb (fst p) (snd p)) (combine a b).

Definition qZ (z : Z) : Q := inject_Z z.

(** [min(100, x)]. *)
Definition qmin_100 (x : Q) : Q := if Qle_bool 100 x then 100%Q else x.

(** [x >= z] for a score [x] and an integer bound [z]. *)
Definition ge (x : Q) (z : Z) : bool := Qle_bool (qZ z) x.

Definition min_abs_diff (ty : Z) (ys : list Z) : Z :=
  match ys with
  | [] => 0%Z
  | y :: ys' => fold_left (fun m y' => Z.min m (Z.abs (y' - ty))) ys' (Z.abs (y - ty))
  end.

(** The state computed once from the target at the top of [best_match]. *)
Record target := mkTarget {
  t_artist : string; t_album : string; t_album_ns : string;
  t_is_self_titled : bool; has_multi_target : bool }.

Definition make_target (target_artist target_album : string) : target :=
  let ta := normalize_artist target_artist in
  let tb := normalize_album_for_match target_album false in
  mkTarget ta tb (replace_char " " "" tb) (String.eqb tb ta)
           (has_collab_marker target_artist).

Section Candidate.
Variables (t : target) (score_cutoff : Z) (c : candidate).

Definition c_artist_n : string := normalize_artist (artist c).
(** Candidate folders: more aggressive cleanup of stacked leading years. *)
Definition c_album_n : string := normalize_album_for_match (album c) true.
Definition c_album_ns : string := replace_char " " "" c_album_n.

Definition artist_set_score : Q := token_set_ratio (t_artist t) c_artist_n.
Definition artist_sort_score : Q := token_sort_ratio (t_artist t) c_artist_n.
Definition label_score : Q :=
  token_set_ratio (t_artist t ++ " " ++ t_album t) (c_artist_n ++ " " ++ c_album_n).
Definition album_token_score : Q := token_set_ratio (t_album t) c_album_n.
Definition album_ns_score : Q := ratio (t_album_ns t) c_album_ns.
Definition album_score : Q := qmax album_token_score album_ns_score.

Definition t_tokens : list string := to_set (split (t_artist t)).
Definition c_tokens : list string := to_set (split c_artist_n).
Definition extras : list string :=
  filter (fun tok => negb (String.eqb tok "s")) (set_diff t_tokens c_tokens).

Definition artist_alias_ok : bool :=
  negb (is_nil c_tokens) && subset c_tokens t_tokens
  && Nat.leb 2 (length c_tokens) && Nat.ltb 0 (length extras)
  && forallb (fun tok => mem tok allowed_extras) extras
  && ge album_score (Z.max score_cutoff 95).

Definition collab_ok : bool :=
  subset t_tokens c_tokens && ge album_score (Z.max score_cutoff 95)
  && ge artist_set_score 85
  && (has_collab_marker (artist c) || Nat.leb (length c_tokens) (length t_tokens + 2))
  && Nat.leb 2 (length t_tokens).

Definition duo_subset_ok : bool :=
  has_multi_target t && subset c_tokens t_tokens && Nat.leb 2 (length c_tokens)
  && ge album_score (Z.max score_cutoff 95) && ge artist_set_score 85.

Definition single_token_superset : bool :=
  Nat.eqb (length t_tokens) 1
  && negb (subset c_tokens t_tokens && subset t_tokens c_tokens)
  && subset t_tokens c_tokens.

(** [artist_ok] as first computed (line 453 of the source). *)
Definition artist_ok_base : bool :=
  (ge artist_set_score 85 && ge artist_sort_score 90)
  || artist_alias_ok || collab_ok || duo_subset_ok.

(** [artist_ok] after the single-token superset guard. *)
Definition artist_ok : bool :=
  if artist_ok_base && single_token_superset then
    t_is_self_titled t && String.eqb c_album_n c_artist_n && ge album_ns_score 99
  else artist_ok_base.

Definition album_extras : list string :=
  set_diff (to_set (split c_album_n)) (to_set (split (t_album t))).

Definition extras_ok (tokens : list string) : bool :=
  forallb (fun tok => str_isdigit tok || mem tok allowed_album_extras) tokens.

(** [strong_album_ok] after the self-titled extras guard. *)
Definition strong_album_ok : bool :=
  if t_is_self_titled t && negb (is_nil album_extras) && negb (extras_ok album_extras)
  then false
  else ge album_token_score score_cutoff
       && ge album_ns_score (Z.max 85 (score_cutoff - 5)).

Definition cand_years : list Z :=
  let ys_album := extract_years (album c) in
  List.app ys_album
    (filter (fun y => negb (existsb (Z.eqb y) ys_album)) (extract_years (root c))).

Definition year_diff (target_year : option string) : option Z :=
  match target_year with
  | Some ty_s =>
      if negb (String.eqb ty_s EmptyString) && negb (is_nil cand_years) then
        match parse_int ty_s with
        | Some ty => Some (min_abs_diff ty cand_years)
        | None => None
        end
      else None
  | None => None
  end.

(** Base score, positive-only year bonus, clamp to [0, 100]. *)
Definition hit_score (target_year : option string) : Q :=
  let score := qmax label_score album_score in
  let score :=
    match year_diff target_year with
    | Some 0%Z => qmin_100 (Qred (score + 10)%Q)
    | Some 1%Z => qmin_100 (Qred (score + 5)%Q)
    | _ => score
    end in
  qmax 0 (qmin_100 score).

End Candidate.

(** One iteration of the main candidate loop: [Some (c, score, year_diff)]
    when [c] passes both gates, [None] for [continue]. *)
Definition main_hit (t : target) (score_cutoff : Z) (target_year : option string)
    (c : candidate) : option (candidate * Q * option Z) :=
  if negb (artist_ok t score_cutoff c) || negb (strong_album_ok t score_cutoff c) then None
  else Some (c, hit_score t c target_year, year_diff c target_year).

(** [artist_set_score >= 90 and artist_sort_score >= 90] of the fallbacks,
    which compare against [normalize_text] of the candidate artist. *)
Definition strong_artist (t : target) (c : candidate) : bool :=
  let c_artist := normalize_text (artist c) in
  ge (token_set_ratio (t_artist t) c_artist) 90
  && ge (token_sort_ratio (t_artist t) c_artist) 90.

Definition starts_with_tokens (pre l : list string) : bool :=
  Nat.leb (length pre) (length l) && list_str_eqb (firstn (length pre) l) pre.

(** Fallback 1: the candidate album starts with the target album tokens,
    followed by the token [and]. *)
Definition prefix_ok (t : target) (c : candidate) : bool :=
  let t_album_tokens_list := split (t_album t) in
  let c_tokens := split (normalize_album_for_match (album c) true) in
  let n := length t_album_tokens_list in
  Nat.ltb n (length c_tokens)
  && list_str_eqb (firstn n c_tokens) t_album_tokens_list
  && String.eqb (nth n c_tokens EmptyString) "and"
  && strong_artist t c.

Definition prefix_candidates (t : target) (score_cutoff : Z) (cs : list candidate)
  : list (candidate * Q) :=
  map (fun c => (c, qZ (Z.max 90 score_cutoff))) (filter (prefix_ok t) cs).

Fixpoint index_of (x : string) (l : list string) : nat :=
  match l with
  | [] => 0
  | y :: l' => if String.eqb x y then 0 else S (index_of x l')
  end.

(** Fallback 2: one side of the first [and] token equals the target album
    tokens once numeric tokens are dropped, or starts with them. *)
Definition segment_ok (t : target) (c : candidate) : bool :=
  let t_album_tokens_list := split (t_album t) in
  let c_tokens := split (normalize_album_for_match (album c) true) in
  mem "and" c_tokens &&
  (let and_idx := index_of "and" c_tokens in
   let left := firstn and_idx c_tokens in
   let right := skipn (S and_idx) c_tokens in
   let strip_years := filter (fun tok => negb (str_isdigit tok)) in
   let matches_left := list_str_eqb (strip_years left) t_album_tokens_list
                       || starts_with_tokens t_album_tokens_list left in
   let matches_right := list_str_eqb (strip_years right) t_album_tokens_list
                        || starts_with_tokens t_album_tokens_list right in
   (matches_left || matches_right) && strong_artist t c).

Definition segment_score (score_cutoff : Z) (target_year : option string)
    (c : candidate) : Q :=
  match target_year with
  | Some ty =>
      if negb (String.eqb ty EmptyString) then
        (if is_substring ty (album c) then qZ (Z.max 92 score_cutoff)
         else qZ (Z.max 90 score_cutoff))
      else qZ (Z.max 90 score_cutoff)
  | None => qZ (Z.max 90 score_cutoff)
  end.

Definition segment_candidates (t : target) (score_cutoff : Z)
    (target_year : option string) (cs : list candidate) : list (candidate * Q) :=
  map (fun c => (c, segment_score score_cutoff target_year c)) (filter (segment_ok t) cs).

(** Fallback 3: the candidate album contains the target album text. *)
Definition contains_ok (t : target) (c : candidate) : bool :=
  let c_album := normalize_album_for_match (album c) true in
  negb (String.eqb c_album EmptyString) && negb (String.eqb (t_album t) EmptyString)
  && is_substring (t_album t) c_album
  && strong_artist t c.

Definition contains_candidates (t : target) (score_cutoff : Z) (cs : list candidate)
  : list (candidate * Q) :=
  map (fun c => (c, qZ (Z.max 90 score_cutoff))) (filter (contains_ok t) cs).

Definition unique {A} (l : list A) : option A :=
  match l with [x] => Some x | _ => None end.

Definition fallbacks (t : target) (score_cutoff : Z) (target_year : option string)
    (cs : list candidate) : option (candidate * Q) :=
  match unique (prefix_candidates t score_cutoff cs) with
  | Some r => Some r
  | None =>
      match unique (segment_candidates t score_cutoff target_year cs) with
      | Some r => Some r
      | None => unique (contains_candidates t score_cutoff cs)
      end
  end.

Definition year_bucket (d : option Z) : nat :=
  match d with
  | Some 0%Z => 0
  | Some 1%Z => 1
  | _ => 2
  end.

(** The sort key [(year_bucket(d), -score)], compared lexicographically. *)
Definition key_le (h1 h2 : candidate * Q * option Z) : bool :=
  let '(_, s1, d1) := h1 in
  let '(_, s2, d2) := h2 in
  Nat.ltb (year_bucket d1) (year_bucket d2)
  || (Nat.eqb (year_bucket d1) (year_bucket d2) && Qle_bool s2 s1).

(** [list.sort] is stable: an element goes before the first one whose key is
    not smaller than its own. *)
Fixpoint insert_hit (h : candidate * Q * option Z) (l : list (candidate * Q * option Z))
  : list (candidate * Q * option Z) :=
  match l with
  | [] => [h]
  | h' :: l' => if key_le h h' then h :: l else h' :: insert_hit h l'
  end.

Definition sort_hits (l : list (candidate * Q * option Z)) : list (candidate * Q * option Z) :=
  fold_right insert_hit [] l.

Definition select_top (score_cutoff : Z) (hits : list (candidate * Q * option Z))
  : option (candidate * Q) :=
  match sort_hits hits with
  | (top_cand, top_score, _) :: _ =>
      if ge top_score score_cutoff then Some (top_cand, top_score) else None
  | [] => None
  end.

Definition main_hits (t : target) (score_cutoff : Z) (target_year : option string)
    (cs : list candidate) : list (candidate * Q * option Z) :=
  flat_map (fun c => match main_hit t score_cutoff target_year c with
                     | Some h => [h] | None => [] end) cs.

Definition best_match (target_artist target_album : string) (candidates : list candidate)
    (score_cutoff : Z) (target_year : option string) : option (candidate * Q) :=
  let t := make_target target_artist target_album in
  match candidates with
  | [] => None
  | _ =>
      match main_hits t score_cutoff target_year candidates with
      | [] => fallbacks t score_cutoff target_year candidates
      | hits => select_top score_cutoff hits
      end
  end.

Definition king_crimson : candidate :=
  mkCandidate "/lib/King Crimson/[1969] In the Court of the Crimson King"
              "King Crimson" "[1969] In the Court of the Crimson King".

(** Library candidates used in the examples below. *)
Definition color_humano : candidate :=
  mkCandidate "/lib/Color Humano/Color Humano" "Color Humano" "Color Humano".

Definition genesis_three : candidate :=
  mkCandidate "/lib/Genesis/And Then There Were Three" "Genesis" "And Then There Were Three".

Definition barbara_thompson : candidate :=
  mkCandidate "/lib/Barbara Thompson/Wilde Tales" "Barbara Thompson" "Wilde Tales".

Definition darryl_way_wolf : candidate :=
  mkCandidate "/lib/Darryl Way's Wolf/Canis Lupus" "Darryl Way's Wolf" "Canis Lupus".

(** ** [dedupe_entries] *)

Module Dedupe.

(** A parsed list entry; [year] is [None] or the year text. *)
Record entry := mkEntry { artist : string; album : string; year : option string }.

(** Python truthiness of [e.get(year)]. *)
Definition has_year (e : entry) : bool :=
  match year e with
  | Some y => negb (String.eqb y EmptyString)
  | None => false
  end.

(** [grouped.setdefault(akey, []).append(e)] on an insertion-ordered dict. *)
Fixpoint add_to_group (akey : string) (e : entry) (grouped : list (string * list entry))
  : list (string * list entry) :=
  match grouped with
  | [] => [(akey, [e])]
  | (k, items) :: rest =>
      if String.eqb k akey then (k, List.app items [e]) :: rest
      else (k, items) :: add_to_group akey e rest
  end.

Definition group_entries (entries : list entry) : list (string * list entry) :=
  fold_left (fun g e => add_to_group (normalize_artist (artist e)) e g) entries [].

Definition album_score (e k : entry) : Q :=
  token_set_ratio (normalize_text (album e)) (normalize_text (album k)).

(** [if not k.get(year) and e.get(year): k[year] = e.get(year)]. *)
Definition merge_year (k e : entry) : entry :=
  if negb (has_year k) && has_year e then mkEntry (artist k) (album k) (year e) else k.

(** The scan over [kept]: the first kept entry scoring [>= cutoff] absorbs
    [e] ([Some] of the updated list); [None] when there is none. *)
Fixpoint merge_into (cutoff : Z) (e : entry) (kept : list entry) : option (list entry) :=
  match kept with
  | [] => None
  | k :: rest =>
      if ge (album_score e k) cutoff then Some (merge_year k e :: rest)
      else option_map (cons k) (merge_into cutoff e rest)
  end.

Definition dedupe_step (cutoff : Z) (kept : list entry) (e : entry) : list entry :=
  match merge_into cutoff e kept with
  | None => List.app kept [e]
  | Some kept' => kept'
  end.

Definition dedupe_entries (entries : list entry) (cutoff : Z) : list entry :=
  flat_map (fun g => fold_left (dedupe_step cutoff) (snd g) []) (group_entries entries).

End Dedupe.

(** ** Auxiliary definitions for the proofs *)

Fixpoint sforall (p : ascii -> bool) (s : string) : bool :=
  match s with
  | EmptyString => true
  | String c r => p c && sforall p r
  end.

Definition is_suffix (r s : string) : Prop := exists p, s = p ++ r.

(** After [lstrip], the string is empty or starts with a non-space. *)
Definition head_not_space (s : string) : Prop :=
  match s with
  | EmptyString => True
  | String c _ => is_space c = false
  end.

(** No two consecutive whitespace characters ([prev]: the previous one was). *)
Fixpoint nds (prev : bool) (s : string) : bool :=
  match s with
  | EmptyString => true
  | String c r => if is_space c then negb prev && nds true r else nds false r
  end.

Definition clean_char (c : ascii) : bool :=
  negb (is_upper c) && negb (in_chars c "&+/.") && negb (is_punct c)
  && (negb (is_space c) || Ascii.eqb c " ").

(** What [normalize_text] returns: lower case, none of [&+/.], no
    punctuation of its class, single spaces only, trimmed. *)
Definition clean (s : string) : Prop :=
  sforall clean_char s = true /\ nds false s = true /\ lstrip s = s /\ rstrip s = s.

Definition q_lower (c : ascii) : bool := negb (is_upper c).
Definition q_amp (c : ascii) : bool := q_lower c && negb (Ascii.eqb c "&").
Definition q_plus (c : ascii) : bool := q_amp c && negb (Ascii.eqb c "+").
Definition q_slash (c : ascii) : bool := q_plus c && negb (Ascii.eqb c "/").
Definition q_dot (c : ascii) : bool := q_slash c && negb (Ascii.eqb c ".").
Definition q_nopunct (c : ascii) : bool := q_dot c && negb (is_punct c).

(** A four-digit token. *)
Definition four_digits (y : string) : Prop :=
  exists a b c d, is_digit a = true /\ is_digit b = true /\ is_digit c = true /\
    is_digit d = true /\ y = String a (String b (String c (String d EmptyString))).

(** The distinct elements of a list, each at its first occurrence. *)
Fixpoint nodup_first (l : list Z) : list Z :=
  match l with
  | [] => []
  | y :: l' => y :: filter (fun z => negb (Z.eqb z y)) (nodup_first l')
  end.

Definition zmem (y : Z) (l : list Z) : bool := existsb (Z.eqb y) l.

(** ** Self-titled tokens as a language *)

(** The strings the pattern s\s*/\s*t|s\.?\s*t\.? matches in full, read
    off the pattern: [s], whitespace, a slash, whitespace, [t]; or [s], an
    optional dot, whitespace, [t], an optional dot. *)
Definition self_titled_shape (token : string) : Prop :=
  (exists w1 w2, sforall is_space w1 = true /\ sforall is_space w2 = true /\
     token = "s" ++ w1 ++ "/" ++ w2 ++ "t")
  \/ (exists d1 w d2, In d1 [EmptyString; "."] /\ sforall is_space w = true /\
     In d2 [EmptyString; "."] /\ token = "s" ++ d1 ++ w ++ "t" ++ d2).

(** ** Playlist assembly *)

(** The line boundaries of [str.splitlines] below code 128: \n, \v, \f, \r
    and the separators 28, 29 and 30. *)
Definition is_line_break (c : ascii) : bool :=
  let n := code c in (Nat.leb 10 n && Nat.leb n 13) || (Nat.leb 28 n && Nat.leb n 30).

(** [str.splitlines()]: [cur] is the line read so far; \r\n is one boundary
    and a boundary at the very end opens no further line. *)
Fixpoint splitlines_aux (cur : string) (s : string) : list string :=
  match s with
  | EmptyString => if String.eqb cur EmptyString then [] else [cur]
  | String c r =>
      if Ascii.eqb c (ascii_of_nat 13) then
        match r with
        | String d r' =>
            if Ascii.eqb d (ascii_of_nat 10) then cur :: splitlines_aux EmptyString r'
            else cur :: splitlines_aux EmptyString r
        | EmptyString => [cur]
        end
      else if is_line_break c then cur :: splitlines_aux EmptyString r
      else splitlines_aux (cur ++ String c EmptyString) r
  end.

Definition splitlines (s : string) : list string := splitlines_aux EmptyString s.

(** [unique_preserve_order]: [seen] is the set of the strings already output. *)
Fixpoint unique_from (seen : list string) (l : list string) : list string :=
  match l with
  | [] => []
  | x :: l' => if mem x seen then unique_from seen l' else x :: unique_from (x :: seen) l'
  end.

Definition unique_preserve_order (seq : list string) : list string := unique_from [] seq.

(** The order [sorted] produces. *)
Definition str_le (a b : string) : Prop := str_ltb b a = false.

(** [collect_album_tracks] on a candidate whose [audio_files] and [cue_files]
    are the given lists (an absent key reads as the empty list). *)
Definition collect_album_tracks (audio_files cue_files : list string) : list string :=
  match cue_files with
  | [] => sorted audio_files
  | _ :: _ => sorted (unique_preserve_order cue_files)
  end.

Definition newline : string := String (ascii_of_nat 10) EmptyString.

(** The text [make_m3u8] writes to [out_path]. *)
Definition make_m3u8 (tracks : list string) : string :=
  "#EXTM3U" ++ newline ++ String.concat EmptyString (map (fun t => t ++ newline) tracks).

(** The end of [main]: [all_tracks] is de-duplicated, then sorted under
    [--sort-tracks]. *)
Definition final_tracks (sort_tracks : bool) (all_tracks : list string) : list string :=
  let all_tracks := unique_preserve_order all_tracks in
  if sort_tracks then sorted all_tracks else all_tracks.

(** ** Parsing the album list *)

(** The [seen] set of the parsers: the key of an entry. *)
Definition entry_key (e : Dedupe.entry) : string * string :=
  (normalize_artist (Dedupe.artist e), normalize_text (Dedupe.album e)).

Definition key_eqb (k1 k2 : string * string) : bool :=
  String.eqb (fst k1) (fst k2) && String.eqb (snd k1) (snd k2).

(** The final loop of both parsers: an entry whose key was seen is dropped. *)
Fixpoint unique_entries (seen : list (string * string)) (es : list Dedupe.entry)
  : list Dedupe.entry :=
  match es with
  | [] => []
  | e :: es' =>
      let k := entry_key e in
      if existsb (key_eqb k) seen then unique_entries seen es'
      else e :: unique_entries (k :: seen) es'
  end.

Fixpoint skip_digits (s : string) : string :=
  match s with
  | String c r => if is_digit c then skip_digits r else s
  | EmptyString => EmptyString
  end.

(** The [re.sub] removing a leading numbering such as 1) or 12. : digits,
    then a closing parenthesis or a dot, then any whitespace. *)
Definition strip_numbering (s : string) : string :=
  match s with
  | String c _ =>
      if is_digit c then
        match skip_digits s with
        | String p r => if Ascii.eqb p ")" || Ascii.eqb p "." then lstrip r else s
        | EmptyString => s
        end
      else s
  | EmptyString => s
  end.

(** The pattern [\((\d{4})\)\s*$] anchored at the start of [s]: the year. *)
Definition year_suffix_at (s : string) : option string :=
  match s with
  | String o (String a (String b (String c (String d (String p rest))))) =>
      if Ascii.eqb o "(" && is_digit a && is_digit b && is_digit c && is_digit d
         && Ascii.eqb p ")" && sforall is_space rest
      then Some (String a (String b (String c (String d EmptyString))))
      else None
  | _ => None
  end.

(** [re.search] of the pattern [\((\d{4})\)\s*$]: the leftmost match, as the text
    before it ([line[:m.start()]]) and the year ([m.group(1)]). *)
Fixpoint search_year_suffix (s : string) : option (string * string) :=
  match year_suffix_at s with
  | Some y => Some (EmptyString, y)
  | None =>
      match s with
      | EmptyString => None
      | String c r =>
          match search_year_suffix r with
          | Some (p, y) => Some (String c p, y)
          | None => None
          end
      end
  end.

(** [s.rsplit(sep, 1)] when [sep] occurs in [s]: split at its last occurrence. *)
Fixpoint rsplit_once (sep s : string) : option (string * string) :=
  match s with
  | EmptyString => None
  | String c r =>
      match rsplit_once sep r with
      | Some (a, b) => Some (String c a, b)
      | None =>
          match drop_prefix sep s with
          | Some rest => Some (EmptyString, rest)
          | None => None
          end
      end
  end.

(** One iteration of the loop of [parse_album_list_from_text]. *)
Definition parse_text_line (raw : string) : option Dedupe.entry :=
  let line := strip raw in
  match line with
  | EmptyString => None
  | String c _ =>
      if Ascii.eqb c "#" then None else
      let line := strip_numbering line in
      let '(line, year) :=
        match search_year_suffix line with
        | Some (p, y) => (rstrip p, Some y)
        | None => (line, None)
        end in
      match rsplit_once " - " line with
      | None => None
      | Some (artist_part, album_part) =>
          let artist := strip artist_part in
          let album := resolve_self_titled (strip album_part) artist in
          if negb (String.eqb artist EmptyString) && negb (String.eqb album EmptyString)
          then Some (Dedupe.mkEntry artist album year)
          else None
      end
  end.

Definition option_list {A} (o : option A) : list A :=
  match o with Some x => [x] | None => [] end.

Definition parse_album_list_from_text (text : string) : list Dedupe.entry :=
  unique_entries [] (flat_map (fun raw => option_list (parse_text_line raw)) (splitlines text)).

(** The line [main] writes for an entry under [--write-list] (and in the
    not-found log). *)
Definition entry_line (e : Dedupe.entry) : string :=
  let year := if Dedupe.has_year e then
                match Dedupe.year e with Some y => " (" ++ y ++ ")" | None => EmptyString end
              else EmptyString in
  Dedupe.artist e ++ " - " ++ Dedupe.album e ++ year.

(** The text written under [--write-list]: the lines joined by newlines,
    plus a final newline. *)
Definition write_list_text (entries : list Dedupe.entry) : string :=
  String.concat newline (map entry_line entries) ++ newline.

(** [re.match] of the character class [\w] on ASCII. *)
Definition is_word_char (c : ascii) : bool :=
  is_digit c || is_upper c || (Nat.leb 97 (code c) && Nat.leb (code c) 122) || Ascii.eqb c "_".

(** A literal matched under [re.IGNORECASE]; [w] is in lower case. *)
Fixpoint ci_prefix (w s : string) : option string :=
  match w, s with
  | EmptyString, _ => Some s
  | String a w', String b s' => if Ascii.eqb (to_lower b) a then ci_prefix w' s' else None
  | String _ _, EmptyString => None
  end.

(** The longest prefix of characters satisfying [p], and the rest. *)
Fixpoint span (p : ascii -> bool) (s : string) : string * string :=
  match s with
  | EmptyString => (EmptyString, EmptyString)
  | String c r =>
      if p c then let '(a, b) := span p r in (String c a, b) else (EmptyString, s)
  end.

(** [P+] where the next item of the pattern cannot match [P]: the rest after
    the longest non-empty run. *)
Definition plus_run (p : ascii -> bool) (s : string) : option string :=
  match span p s with
  | (EmptyString, _) => None
  | (_, rest) => Some rest
  end.

Definition four_digits_prefix (s : string) : bool :=
  match s with
  | String a (String b (String c (String d _))) =>
      is_digit a && is_digit b && is_digit c && is_digit d
  | _ => false
  end.

(** [,\s+\d{4}] *)
Definition comma_year (s : string) : bool :=
  match s with
  | String x r =>
      Ascii.eqb x "," && match plus_run is_space r with
                         | Some r' => four_digits_prefix r'
                         | None => false
                         end
  | EmptyString => false
  end.

(** The pattern of [is_noise], matched at the start of [l] under
    [re.IGNORECASE]:
    [^\s*(On\s+\w+\s+\d{1,2},\s+\d{4}|Quote|Originally\s+posted|http|https|www\.)]. *)
Definition noise_match (l : string) : bool :=
  let s := lstrip l in
  let on_date :=
    match ci_prefix "on" s with
    | None => false
    | Some r =>
        match plus_run is_space r with
        | None => false
        | Some r =>
            match plus_run is_word_char r with
            | None => false
            | Some r =>
                match plus_run is_space r with
                | None => false
                | Some (String d1 r) =>
                    is_digit d1 &&
                    (comma_year r ||
                     match r with
                     | String d2 r' => is_digit d2 && comma_year r'
                     | EmptyString => false
                     end)
                | Some EmptyString => false
                end
            end
        end
    end in
  let originally :=
    match ci_prefix "originally" s with
    | None => false
    | Some r =>
        match plus_run is_space r with
        | None => false
        | Some r => match ci_prefix "posted" r with Some _ => true | None => false end
        end
    end in
  let lit w := match ci_prefix w s with Some _ => true | None => false end in
  on_date || lit "quote" || originally || lit "http" || lit "www.".

(** [is_noise] of [parse_album_list_from_html]. *)
Definition is_noise (line : string) : bool :=
  let l := strip line in
  String.eqb l EmptyString || Nat.ltb (String.length l) 6 || noise_match l.

(** One iteration of the loop of [parse_album_list_from_html]. *)
Definition parse_html_line (raw : string) : option Dedupe.entry :=
  if is_noise raw then None else
  let line := strip raw in
  match search_year_suffix line with
  | None => None
  | Some (p, year) =>
      let line := rstrip p in
      match rsplit_once " - " line with
      | None => None
      | Some (artist_part, album_part) =>
          let artist := strip artist_part in
          let album := resolve_self_titled (strip album_part) artist in
          Some (Dedupe.mkEntry artist album (Some year))
      end
  end.

(** [parse_album_list_from_html] after the page text is extracted:
    [combined] is the text BeautifulSoup returns for the post bodies. *)
Definition parse_album_list_from_html_text (combined : string) : list Dedupe.entry :=
  unique_entries [] (flat_map (fun raw => option_list (parse_html_line raw)) (splitlines combined)).

(** ** Conditions of the round trip through [--write-list] *)

Definition no_line_break (s : string) : bool := sforall (fun c => negb (is_line_break c)) s.

(** An entry whose written line reads back as itself: trimmed, non-empty
    fields on one line, an artist that does not look like a comment or a
    numbering, an album in which ' - ' does not occur (also not right after
    the separator) and that is not a self-titled marker, and a year that is
    four digits, or absent with an album that does not end in a year. *)
Definition list_line_ok (e : Dedupe.entry) : Prop :=
  Dedupe.artist e <> EmptyString /\ strip (Dedupe.artist e) = Dedupe.artist e /\
  no_line_break (Dedupe.artist e) = true /\ String.get 0 (Dedupe.artist e) <> Some "#"%char /\
  strip_numbering (Dedupe.artist e) = Dedupe.artist e /\
  Dedupe.album e <> EmptyString /\ strip (Dedupe.album e) = Dedupe.album e /\
  no_line_break (Dedupe.album e) = true /\
  is_substring " - " (String " " (Dedupe.album e)) = false /\
  is_self_titled_token (lower (Dedupe.album e)) = false /\
  match Dedupe.year e with
  | None => search_year_suffix (Dedupe.album e) = None
  | Some y => four_digits y
  end.

(** A parsed entry as both parsers produce it: non-empty artist and album
    without surrounding whitespace. *)
Definition entry_ok (e : Dedupe.entry) : Prop :=
  Dedupe.artist e <> EmptyString /\ Dedupe.album e <> EmptyString /\
  strip (Dedupe.artist e) = Dedupe.artist e /\ strip (Dedupe.album e) = Dedupe.album e.

(** ** Cue sheets *)

Definition dquote : ascii := ascii_of_nat 34.

(** The pattern of [simple_cue_tracks] matched at the start of [s] under
    [re.IGNORECASE]: the keyword FILE, whitespace, a non-empty name between
    double quotes, whitespace and a word. [Some] of the name (group 1) and
    of the text after the match. *)
Definition cue_file_at (s : string) : option (string * string) :=
  match ci_prefix "file" s with
  | None => None
  | Some r =>
      match plus_run is_space r with
      | Some (String q r) =>
          if Ascii.eqb q dquote then
            match span (fun c => negb (Ascii.eqb c dquote)) r with
            | (EmptyString, _) => None
            | (_, EmptyString) => None
            | (name, String _ r) =>
                match plus_run is_space r with
                | None => None
                | Some r =>
                    match span is_word_char r with
                    | (EmptyString, _) => None
                    | (_, rest) => Some (name, rest)
                    end
                end
            end
          else None
      | _ => None
      end
  end.

(** [re.finditer]: a match is searched from each position in turn, and the
    search resumes after each match; [fuel] bounds the number of steps, each
    of which consumes at least one character. *)
Fixpoint cue_refs_aux (fuel : nat) (s : string) : list string :=
  match fuel with
  | 0 => []
  | S fuel =>
      match cue_file_at s with
      | Some (name, rest) => name :: cue_refs_aux fuel rest
      | None =>
          match s with
          | EmptyString => []
          | String _ r => cue_refs_aux fuel r
          end
      end
  end.

(** The names [m.group(1)] of the matches in the cue sheet's text. *)
Definition cue_refs (content : string) : list string :=
  cue_refs_aux (S (String.length content)) content.

(** [simple_cue_tracks]: [content] is the text read from the cue sheet
    ([None] when opening or reading it fails), [resolve] gives the path
    of a name relative to the cue sheet's folder, and [path_exists] tells
    whether a path exists. *)
Definition simple_cue_tracks (path_exists : string -> bool) (resolve : string -> string)
  (content : option string) : list string :=
  match content with
  | None => []
  | Some text => filter path_exists (map resolve (cue_refs text))
  end.

(** A cue sheet line [FILE <quote>name<quote> type]. *)
Definition cue_file_line (keyword name type : string) : string :=
  keyword ++ " " ++ String dquote (name ++ String dquote (" " ++ type ++ newline)).

(** ** Library folders *)

Definition disc_keywords : list string :=
  ["cd"; "disc"; "disk"; "lp"; "side"; "bonus"; "extra"; "extras"; "vinyl"; "cassette"; "tape"].

(** The class [a-z0-9] under [re.IGNORECASE]. *)
Definition is_alnum (c : ascii) : bool :=
  is_digit c || is_upper c || (Nat.leb 97 (code c) && Nat.leb (code c) 122).

(** The optional group [(?:\s*[\-_]?[a-z0-9]+)?] followed by [$], which
    also matches before a final newline. *)
Definition disc_tail_ok (t : string) : bool :=
  let at_end u := String.eqb u EmptyString || String.eqb u newline in
  at_end t ||
  let t1 := lstrip t in
  let t2 := match t1 with
            | String c r => if Ascii.eqb c "-" || Ascii.eqb c "_" then r else t1
            | EmptyString => t1
            end in
  match span is_alnum t2 with
  | (EmptyString, _) => false
  | (_, rest) => at_end rest
  end.

(** [disc_folder_re.match(s)]: one of the keywords, in any case, then the
    optional group up to the end. *)
Definition is_disc_folder (s : string) : bool :=
  existsb (fun k => match ci_prefix k s with Some t => disc_tail_ok t | None => false end)
    disc_keywords.

(** The artist and album [index_music_library] derives from the parts of a
    folder path (the empty string for a missing part). *)
Definition folder_artist_album (parts : list string) : string * string :=
  match rev parts with
  | candidate_album :: candidate_artist :: rest =>
      if is_disc_folder (strip candidate_album) then
        match rest with
        | artist :: _ => (artist, candidate_artist)
        | [] => (candidate_artist, candidate_album)
        end
      else (candidate_artist, candidate_album)
  | _ => (EmptyString, EmptyString)
  end.

(** * Proofs *)

(** ** Examples *)

Example normalize_text_ex1 : normalize_text "  The T.R.A.M. & Co (UK)! " = "tram and co uk".
Proof. reflexivity. Qed.
Example normalize_text_ex2 : normalize_text "L' Amour/Haine" = "amour and haine".
Proof. reflexivity. Qed.
Example normalize_text_ex3 : normalize_text "An  Island" = "island".
Proof. reflexivity. Qed.

Example normalize_album_ex1 :
  normalize_album_for_match "[1970 (2021)] The Title" true = "title".
Proof. reflexivity. Qed.
Example normalize_album_ex2 :
  normalize_album_for_match "1970 Title" false = "title".
Proof. reflexivity. Qed.

Example normalize_artist_ex1 : normalize_artist "Asia (US)" = "asia".
Proof. reflexivity. Qed.
Example normalize_artist_ex2 : normalize_artist "Darryl Way's Wolf" = "darryl way s wolf".
Proof. reflexivity. Qed.

Example extract_years_ex1 : extract_years "[1973 (2004)] Title" = [1973; 2004]%Z.
Proof. reflexivity. Qed.
Example extract_years_ex2 : extract_years "1999 x [2001] 20011 1999" = [2001; 1999]%Z.
Proof. reflexivity. Qed.

Example ratio_ex1 : ratio "color" "colorhumano" = Qred (125 # 2).
Proof. reflexivity. Qed.
Example token_set_ratio_ex1 : token_set_ratio "strangewings" "strange wings" = 96%Q.
Proof. reflexivity. Qed.
Example token_set_ratio_ex2 : token_set_ratio "color" "color humano" = 100%Q.
Proof. reflexivity. Qed.
Example token_set_ratio_ex3 : token_set_ratio "a b c" "a b d" = 80%Q.
Proof. vm_compute. reflexivity. Qed.
Example token_sort_ratio_ex1 : token_sort_ratio "darryl way" "darryl way s wolf" = Qred (200 * 10 / 27)%Q.
Proof. vm_compute. reflexivity. Qed.

Example best_match_ex1 :
  best_match "King Crimson" "In the Court of the Crimson King" [king_crimson] 80 (Some "1969")
  = Some (king_crimson, 100%Q).
Proof. vm_compute. reflexivity. Qed.

(** ** String lemmas *)

Ltac char_cases :=
  let c := fresh "c" in
  intro c; destruct c as [[] [] [] [] [] [] [] []]; vm_compute;
  intros; first [reflexivity | discriminate | congruence].

Lemma sforall_app : forall p a b, sforall p (a ++ b) = sforall p a && sforall p b.
Proof.
  induction a as [|c a IH]; intros b; simpl; [reflexivity|].
  rewrite IH. apply andb_assoc.
Qed.

Lemma sforall_impl : forall (p q : ascii -> bool) s,
  (forall c, p c = true -> q c = true) -> sforall p s = true -> sforall q s = true.
Proof.
  intros p q s Hpq. induction s as [|c r IH]; simpl; [reflexivity|].
  intros H. apply andb_prop in H as [H1 H2]. rewrite (Hpq c H1), (IH H2). reflexivity.
Qed.

Lemma sforall_suffix : forall p r s, is_suffix r s -> sforall p s = true -> sforall p r = true.
Proof.
  intros p r s [q ->] H. rewrite sforall_app in H. apply andb_prop in H. tauto.
Qed.

Lemma sforall_smap : forall (p q : ascii -> bool) f s,
  (forall c, p c = true -> sforall q (f c) = true) ->
  sforall p s = true -> sforall q (smap f s) = true.
Proof.
  intros p q f s Hf. induction s as [|c r IH]; simpl; [reflexivity|].
  intros H. apply andb_prop in H as [H1 H2].
  rewrite sforall_app, (Hf c H1), (IH H2). reflexivity.
Qed.

Lemma smap_id : forall (p : ascii -> bool) f s,
  (forall c, p c = true -> f c = String c EmptyString) ->
  sforall p s = true -> smap f s = s.
Proof.
  intros p f s Hf. induction s as [|c r IH]; simpl; [reflexivity|].
  intros H. apply andb_prop in H as [H1 H2].
  rewrite (Hf c H1), (IH H2). reflexivity.
Qed.

Lemma string_app_assoc : forall a b c, (a ++ b) ++ c = a ++ (b ++ c).
Proof.
  induction a as [|x a IH]; intros b c; simpl; [reflexivity|]. rewrite IH. reflexivity.
Qed.

Lemma append_empty_r : forall s, s ++ EmptyString = s.
Proof. induction s as [|c s IH]; simpl; [reflexivity|]. rewrite IH. reflexivity. Qed.

Lemma is_suffix_refl : forall s, is_suffix s s.
Proof. intros s. exists EmptyString. reflexivity. Qed.

Lemma is_suffix_trans : forall a b c, is_suffix a b -> is_suffix b c -> is_suffix a c.
Proof.
  intros a b c [p ->] [q ->]. exists (q ++ p). symmetry. apply string_app_assoc.
Qed.

Lemma is_suffix_cons : forall c r s, is_suffix (String c r) s -> is_suffix r s.
Proof.
  intros c r s [p ->]. exists (p ++ String c EmptyString).
  rewrite string_app_assoc. reflexivity.
Qed.

Lemma lstrip_suffix : forall s, is_suffix (lstrip s) s.
Proof.
  induction s as [|c r IH]; simpl; [apply is_suffix_refl|].
  destruct (is_space c).
  - destruct IH as [p Hp]. exists (String c p). simpl. rewrite <- Hp. reflexivity.
  - apply is_suffix_refl.
Qed.

Lemma lstrip_idem : forall s, lstrip (lstrip s) = lstrip s.
Proof.
  induction s as [|c r IH]; simpl; [reflexivity|].
  destruct (is_space c) eqn:E; [exact IH|]. simpl. rewrite E. reflexivity.
Qed.

Lemma lstrip_head : forall s, head_not_space (lstrip s).
Proof.
  induction s as [|c r IH]; simpl; [exact I|].
  destruct (is_space c) eqn:E; [exact IH|]. exact E.
Qed.

Lemma lstrip_head_id : forall s, head_not_space s -> lstrip s = s.
Proof.
  intros [|c r]; simpl; [reflexivity|]. intros ->. reflexivity.
Qed.

Lemma rstrip_idem : forall s, rstrip (rstrip s) = rstrip s.
Proof.
  induction s as [|c r IH]; simpl; [reflexivity|].
  destruct (is_space c && String.eqb (rstrip r) EmptyString) eqn:E; [reflexivity|].
  simpl. rewrite IH, E. reflexivity.
Qed.

Lemma rstrip_cons_fixed : forall c r, rstrip (String c r) = String c r -> rstrip r = r.
Proof.
  intros c r. simpl.
  destruct (is_space c && String.eqb (rstrip r) EmptyString); [discriminate|].
  intros H. injection H. tauto.
Qed.

Lemma rstrip_suffix_fixed : forall p r, rstrip (p ++ r) = p ++ r -> rstrip r = r.
Proof.
  induction p as [|c p IH]; simpl; [tauto|].
  intros r H. apply IH. apply (rstrip_cons_fixed c). exact H.
Qed.

Lemma head_not_space_rstrip : forall s, head_not_space s -> head_not_space (rstrip s).
Proof.
  intros [|c r]; simpl; [tauto|]. intros E. rewrite E. simpl. exact E.
Qed.

Lemma drop_prefix_app : forall w s r, drop_prefix w s = Some r -> s = w ++ r.
Proof.
  induction w as [|a w IH]; intros s r; simpl.
  - congruence.
  - destruct s as [|b s]; [discriminate|].
    destruct (Ascii.eqb a b) eqn:E; [|discriminate].
    apply Ascii.eqb_eq in E. subst b. intros H. rewrite (IH s r H). reflexivity.
Qed.

Lemma strip_article_from_cases : forall arts s,
  strip_article_from arts s = s \/
  exists r, is_suffix r s /\ strip_article_from arts s = lstrip r.
Proof.
  induction arts as [|w ws IH]; intros s; simpl; [left; reflexivity|].
  destruct (drop_prefix w s) as [[|c r]|] eqn:E; try apply IH.
  destruct (is_space c); [|apply IH].
  right. exists r. split; [|reflexivity].
  apply drop_prefix_app in E. subst s. exists (w ++ String c EmptyString).
  rewrite string_app_assoc. reflexivity.
Qed.

Lemma strip_article_suffix : forall s, is_suffix (strip_article s) s.
Proof.
  intros s. destruct (strip_article_from_cases articles s) as [E|[r [Hr E]]];
    unfold strip_article; rewrite E; [apply is_suffix_refl|].
  eapply is_suffix_trans; [apply lstrip_suffix|exact Hr].
Qed.

Lemma strip_elision_suffix : forall s, is_suffix (strip_elision s) s.
Proof.
  intros [|c r]; simpl; [apply is_suffix_refl|].
  destruct (Ascii.eqb c "l"); [|apply is_suffix_refl].
  destruct (lstrip r) as [|q r'] eqn:E; [apply is_suffix_refl|].
  destruct (Ascii.eqb q "'"); [|apply is_suffix_refl].
  apply is_suffix_cons with (c := q). rewrite <- E.
  destruct (lstrip_suffix r) as [p Hp]. exists (String c p). simpl. rewrite <- Hp. reflexivity.
Qed.

(** ** Whitespace runs *)

Lemma nds_suffix : forall p r b, nds b (p ++ r) = true -> exists b', nds b' r = true.
Proof.
  induction p as [|c p IH]; intros r b; simpl; [eauto|].
  destruct (is_space c); [intros H; apply andb_prop in H as [_ H]|intros H]; eapply IH; exact H.
Qed.

Lemma nds_head : forall s b, head_not_space s -> nds b s = nds false s.
Proof.
  intros [|c r] b; simpl; [reflexivity|]. intros ->. reflexivity.
Qed.

Lemma nds_rstrip : forall s b, nds b s = true -> nds b (rstrip s) = true.
Proof.
  induction s as [|c r IH]; intros b; simpl; [tauto|].
  destruct (is_space c && String.eqb (rstrip r) EmptyString); [reflexivity|].
  simpl. destruct (is_space c).
  - intros H. apply andb_prop in H as [H1 H2]. rewrite H1. simpl. apply IH. exact H2.
  - apply IH.
Qed.

Lemma sub_runs_space_nds : forall y b, nds b (sub_runs is_space " " b y) = true.
Proof.
  induction y as [|c r IH]; intros b; simpl; [reflexivity|].
  destruct (is_space c) eqn:E.
  - destruct b; [apply IH|]. simpl. apply IH.
  - simpl. rewrite E. apply IH.
Qed.

Lemma sub_runs_id : forall p rep b s,
  sforall (fun c => negb (p c)) s = true -> sub_runs p rep b s = s.
Proof.
  intros p rep b s. revert b. induction s as [|c r IH]; intros b; simpl; [reflexivity|].
  intros H. apply andb_prop in H as [H1 H2].
  destruct (p c); [discriminate|]. rewrite (IH false H2). reflexivity.
Qed.

Lemma sub_runs_space_id : forall s b,
  sforall (fun c => negb (is_space c) || Ascii.eqb c " ") s = true ->
  nds b s = true -> sub_runs is_space " " b s = s.
Proof.
  induction s as [|c r IH]; intros b; simpl; [reflexivity|].
  intros H. apply andb_prop in H as [H1 H2].
  destruct (is_space c) eqn:E.
  - simpl in H1. apply Ascii.eqb_eq in H1. subst c.
    intros H. apply andb_prop in H as [Hb H3]. destruct b; [discriminate|].
    simpl. rewrite (IH true H2 H3). reflexivity.
  - intros H. rewrite (IH false H2 H). reflexivity.
Qed.

Lemma sforall_sub_runs : forall (p q : ascii -> bool) rep b s,
  sforall q rep = true -> sforall (fun c => p c || q c) s = true ->
  sforall q (sub_runs p rep b s) = true.
Proof.
  intros p q rep b s Hrep. revert b. induction s as [|c r IH]; intros b; simpl; [reflexivity|].
  intros H. apply andb_prop in H as [H1 H2].
  destruct (p c) eqn:E.
  - destruct b; [apply IH; exact H2|]. rewrite sforall_app, Hrep, IH; auto.
  - simpl in H1. simpl. rewrite H1. apply IH. exact H2.
Qed.

Lemma sforall_rstrip : forall p s, sforall p s = true -> sforall p (rstrip s) = true.
Proof.
  intros p. induction s as [|c r IH]; simpl; [reflexivity|].
  intros H. apply andb_prop in H as [H1 H2].
  destruct (is_space c && String.eqb (rstrip r) EmptyString); [reflexivity|].
  simpl. rewrite H1, (IH H2). reflexivity.
Qed.

Lemma sforall_true : forall s, sforall (fun _ => true) s = true.
Proof. induction s; simpl; auto. Qed.

(** ** Output of [normalize_text] *)

Lemma clean_strip_article : forall t, clean t -> clean (strip_article t).
Proof.
  intros t Ht. unfold strip_article.
  destruct (strip_article_from_cases articles t) as [E|[r [Hr E]]]; rewrite E; [exact Ht|].
  destruct Ht as [H1 [H2 [H3 H4]]].
  assert (Hs : is_suffix (lstrip r) t) by (eapply is_suffix_trans; [apply lstrip_suffix|exact Hr]).
  destruct Hs as [p Hp].
  split; [|split; [|split]].
  - eapply sforall_suffix; [exists p; exact Hp|exact H1].
  - rewrite Hp in H2. destruct (nds_suffix _ _ _ H2) as [b' Hb'].
    rewrite (nds_head _ b' (lstrip_head r)) in Hb'. exact Hb'.
  - apply lstrip_idem.
  - apply (rstrip_suffix_fixed p). rewrite <- Hp. exact H4.
Qed.

Lemma post_article_id : forall x, clean x ->
  strip (sub_runs is_space " " false (sub_runs is_punct " " false (strip_elision x))) = x.
Proof.
  intros x Hx. pose proof Hx as [H1 [H2 [H3 H4]]].
  assert (Hel : strip_elision x = x).
  { destruct x as [|c r]; simpl; [reflexivity|].
    destruct (Ascii.eqb c "l"); [|reflexivity].
    destruct (lstrip r) as [|q r'] eqn:E; [reflexivity|].
    destruct (Ascii.eqb q "'") eqn:Eq; [|reflexivity].
    apply Ascii.eqb_eq in Eq. subst q.
    assert (Hs : is_suffix (lstrip r) (String c r)).
    { eapply is_suffix_trans; [apply lstrip_suffix|]. exists (String c EmptyString). reflexivity. }
    pose proof (sforall_suffix _ _ _ Hs H1) as H. rewrite E in H. discriminate H. }
  rewrite Hel.
  rewrite (sub_runs_id is_punct).
  2:{ eapply sforall_impl; [|exact H1]. char_cases. }
  rewrite sub_runs_space_id; [|eapply sforall_impl; [|exact H1]; char_cases|exact H2].
  unfold strip. rewrite H3, H4. reflexivity.
Qed.

Lemma pre_article_id : forall t, clean t ->
  replace_char "." "" (replace_char "/" " and " (replace_char "+" " "
    (replace_char "&" " and " (unidecode (lower (strip t)))))) = t.
Proof.
  intros t Ht. pose proof Ht as [H1 [H2 [H3 H4]]].
  unfold strip. rewrite H3, H4. unfold unidecode, lower, replace_char.
  rewrite (smap_id clean_char _ t); [|char_cases|exact H1].
  rewrite (smap_id clean_char _ t); [|char_cases|exact H1].
  rewrite (smap_id clean_char _ t); [|char_cases|exact H1].
  rewrite (smap_id clean_char _ t); [|char_cases|exact H1].
  rewrite (smap_id clean_char _ t); [|char_cases|exact H1].
  reflexivity.
Qed.

Lemma sforall_replace : forall (p q : ascii -> bool) ch rep s,
  sforall q rep = true ->
  (forall c, p c = true -> negb (Ascii.eqb c ch) = true -> q c = true) ->
  sforall p s = true -> sforall q (replace_char ch rep s) = true.
Proof.
  intros p q ch rep s Hrep Hpq. apply sforall_smap. intros c Hc.
  destruct (Ascii.eqb c ch) eqn:E; [exact Hrep|]. simpl. rewrite (Hpq c Hc); [reflexivity|].
  rewrite E. reflexivity.
Qed.

Lemma clean_normalize_text : forall s, clean (normalize_text s).
Proof.
  intros s. unfold normalize_text, unidecode.
  set (l := lower (strip s)).
  assert (A0 : sforall q_lower l = true).
  { unfold l, lower. apply (sforall_smap (fun _ => true)); [char_cases|apply sforall_true]. }
  assert (A1 : sforall q_amp (replace_char "&" " and " l) = true).
  { apply (sforall_replace q_lower); [reflexivity|char_cases|exact A0]. }
  set (l1 := replace_char "&" " and " l) in *.
  assert (A2 : sforall q_plus (replace_char "+" " " l1) = true).
  { apply (sforall_replace q_amp); [reflexivity|char_cases|exact A1]. }
  set (l2 := replace_char "+" " " l1) in *.
  assert (A3 : sforall q_slash (replace_char "/" " and " l2) = true).
  { apply (sforall_replace q_plus); [reflexivity|char_cases|exact A2]. }
  set (l3 := replace_char "/" " and " l2) in *.
  assert (A4 : sforall q_dot (replace_char "." "" l3) = true).
  { apply (sforall_replace q_slash); [reflexivity|char_cases|exact A3]. }
  set (l4 := replace_char "." "" l3) in *.
  assert (A5 : sforall q_dot (strip_elision (strip_article l4)) = true).
  { eapply sforall_suffix; [|exact A4].
    eapply is_suffix_trans; [apply strip_elision_suffix|apply strip_article_suffix]. }
  set (w := strip_elision (strip_article l4)) in *.
  assert (A6 : sforall q_nopunct (sub_runs is_punct " " false w) = true).
  { apply sforall_sub_runs; [reflexivity|]. eapply sforall_impl; [|exact A5]. char_cases. }
  set (y := sub_runs is_punct " " false w) in *.
  assert (A7 : sforall clean_char (sub_runs is_space " " false y) = true).
  { apply sforall_sub_runs; [reflexivity|]. eapply sforall_impl; [|exact A6]. char_cases. }
  set (z := sub_runs is_space " " false y) in *.
  pose proof (sub_runs_space_nds y false) as N. fold z in N.
  destruct (lstrip_suffix z) as [p Hp].
  unfold strip. split; [|split; [|split]].
  - apply sforall_rstrip. eapply sforall_suffix; [exists p; exact Hp|exact A7].
  - apply nds_rstrip. rewrite Hp in N. destruct (nds_suffix _ _ _ N) as [b' Hb'].
    rewrite (nds_head _ b' (lstrip_head z)) in Hb'. exact Hb'.
  - apply lstrip_head_id, head_not_space_rstrip, lstrip_head.
  - apply rstrip_idem.
Qed.

(** On its own output, [normalize_text] only strips a leading article. *)
Lemma normalize_text_clean : forall t, clean t -> normalize_text t = strip_article t.
Proof.
  intros t Ht. unfold normalize_text. cbv zeta.
  rewrite (pre_article_id t Ht). apply post_article_id, clean_strip_article, Ht.
Qed.

(** ** Digit strings *)

Lemma digit_clean_char : forall c, is_digit c = true -> clean_char c = true.
Proof. char_cases. Qed.

Lemma digit_not_space : forall c, is_digit c = true -> is_space c = false.
Proof. char_cases. Qed.

Ltac digit_head_cases :=
  let a := fresh "a" in let r := fresh "r" in let H := fresh "H" in
  intros a r H; destruct a as [[] [] [] [] [] [] [] []]; vm_compute in H;
  first [discriminate H | reflexivity].

Lemma strip_article_digit : forall a r, is_digit a = true -> strip_article (String a r) = String a r.
Proof. digit_head_cases. Qed.

Lemma strip_elision_digit : forall a r, is_digit a = true -> strip_elision (String a r) = String a r.
Proof. digit_head_cases. Qed.

Lemma digits_clean : forall s, sforall is_digit s = true -> clean s.
Proof.
  intros s H. split; [|split; [|split]].
  - eapply sforall_impl; [exact digit_clean_char|exact H].
  - assert (G : forall b, nds b s = true).
    { induction s as [|c r IH]; intros b; simpl; [reflexivity|].
      simpl in H. apply andb_prop in H as [H1 H2]. rewrite (digit_not_space c H1). apply IH, H2. }
    apply G.
  - destruct s as [|c r]; simpl; [reflexivity|].
    simpl in H. apply andb_prop in H as [H1 _]. rewrite (digit_not_space c H1). reflexivity.
  - induction s as [|c r IH]; simpl; [reflexivity|].
    simpl in H. apply andb_prop in H as [H1 H2]. rewrite (digit_not_space c H1), (IH H2). reflexivity.
Qed.

Lemma take4digits_four : forall y rest, four_digits y -> take4digits (y ++ rest) = Some rest.
Proof.
  intros y rest (a & b & c & d & Ha & Hb & Hc & Hd & ->). simpl.
  rewrite Ha, Hb, Hc, Hd. reflexivity.
Qed.

Lemma strip_year_tokens_concat : forall ys k,
  Forall four_digits ys -> length ys <= k -> strip_year_tokens k (String.concat " " ys) = EmptyString.
Proof.
  induction ys as [|y ys IH]; intros k Hys Hk.
  - destruct k; reflexivity.
  - inversion Hys as [|? ? Hy Hys']; subst.
    destruct k as [|k]; simpl in Hk; [lia|].
    destruct ys as [|y' ys'].
    + pose proof (take4digits_four y EmptyString Hy) as T. rewrite append_empty_r in T.
      simpl. rewrite T. destruct k; reflexivity.
    + change (String.concat " " (y :: y' :: ys')) with (y ++ " " ++ String.concat " " (y' :: ys')).
      simpl strip_year_tokens. rewrite (take4digits_four y _ Hy).
      simpl lstrip. rewrite lstrip_head_id.
      * apply IH; [exact Hys'|simpl in *; lia].
      * inversion Hys' as [|? ? (a & b & c & d & Ha & _ & _ & _ & Hy') _]; subst.
        destruct ys'; simpl; apply digit_not_space, Ha.
Qed.

(** * Claims *)

(** ** C4 *)

(** C4 (corrected). Applying [normalize_text] to its own output only strips
    one more leading article word with the whitespace after it (when the
    first result starts with one): [normalize_text] is idempotent exactly on
    inputs whose normalized form does not begin with an article and a space. *)
Theorem normalize_text_second_pass : forall s,
  normalize_text (normalize_text s) = strip_article (normalize_text s).
Proof.
  intros s. apply normalize_text_clean, clean_normalize_text.
Qed.

(** C4, counterexample: [the the x] normalizes to [the x], whose
    normalization is [x]. *)
Lemma normalize_text_not_idempotent :
  normalize_text (normalize_text "the the x") <> normalize_text "the the x".
Proof. vm_compute. discriminate. Qed.

(** ** C8 *)

Lemma lstrip_split : forall r, exists w, sforall is_space w = true /\ r = w ++ lstrip r.
Proof.
  induction r as [|c r IH]; simpl.
  - exists EmptyString. split; reflexivity.
  - destruct (is_space c) eqn:Hc.
    + destruct IH as [w [Hw E]]. exists (String c w). simpl. rewrite Hc, Hw.
      split; [reflexivity|]. rewrite <- E. reflexivity.
    + exists EmptyString. split; reflexivity.
Qed.

Lemma lstrip_space_app : forall w r, sforall is_space w = true -> lstrip (w ++ r) = lstrip r.
Proof.
  induction w as [|c w IH]; intros r H; simpl; [reflexivity|].
  simpl in H. apply andb_prop in H as [Hc Hw]. rewrite Hc. apply IH, Hw.
Qed.

Lemma is_self_titled_token_shape : forall token,
  is_self_titled_token token = true <-> self_titled_shape token.
Proof.
  intros token. split.
  - destruct token as [|s0 r]; [discriminate|]. unfold is_self_titled_token.
    intros H. apply andb_prop in H as [Hs H]. apply Ascii.eqb_eq in Hs. subst s0.
    apply orb_true_iff in H as [H|H].
    + left. destruct (lstrip_split r) as [w1 [Hw1 E1]].
      destruct (lstrip r) as [|sl r2]; [discriminate|].
      apply andb_prop in H as [Hsl H]. apply Ascii.eqb_eq in Hsl. subst sl.
      apply String.eqb_eq in H. destruct (lstrip_split r2) as [w2 [Hw2 E2]].
      rewrite H in E2. exists w1, w2. split; [exact Hw1|split; [exact Hw2|]].
      rewrite E1, E2. reflexivity.
    + right.
      assert (Hr : exists d1, In d1 [EmptyString; "."] /\ r = d1 ++
        (match r with
         | String d r' => if Ascii.eqb d "." then r' else r
         | EmptyString => r
         end)).
      { destruct r as [|d r']; [exists EmptyString; split; [left|]; reflexivity|].
        destruct (Ascii.eqb d ".") eqn:Hd.
        - apply Ascii.eqb_eq in Hd. subst d. exists ".". split; [right; left|]; reflexivity.
        - exists EmptyString. split; [left|]; reflexivity. }
      destruct Hr as [d1 [Hd1 Er]].
      revert H Er.
      generalize (match r with
                  | String d r' => if Ascii.eqb d "." then r' else r
                  | EmptyString => r
                  end) as r1.
      intros r1 H Er. destruct (lstrip_split r1) as [w [Hw E1]].
      destruct (lstrip r1) as [|t r3]; [discriminate|].
      apply andb_prop in H as [Ht H]. apply Ascii.eqb_eq in Ht. subst t.
      assert (Hd2 : In r3 [EmptyString; "."]).
      { apply orb_true_iff in H as [H|H]; apply String.eqb_eq in H; subst r3;
          [left|right; left]; reflexivity. }
      exists d1, w, r3. split; [exact Hd1|split; [exact Hw|split; [exact Hd2|]]].
      rewrite Er, E1. reflexivity.
  - intros [(w1 & w2 & Hw1 & Hw2 & ->)|(d1 & w & d2 & Hd1 & Hw & Hd2 & ->)];
      unfold is_self_titled_token; cbn [append]; rewrite Ascii.eqb_refl, andb_true_l;
      apply orb_true_iff.
    + left. rewrite lstrip_space_app by exact Hw1. cbn [lstrip append].
      change (is_space "/") with false. cbn iota.
      rewrite Ascii.eqb_refl, andb_true_l.
      rewrite lstrip_space_app by exact Hw2. reflexivity.
    + right.
      assert (E : (match d1 ++ w ++ String "t" d2 with
                   | String d r' => if Ascii.eqb d "." then r' else d1 ++ w ++ String "t" d2
                   | EmptyString => d1 ++ w ++ String "t" d2
                   end) = w ++ String "t" d2).
      { destruct Hd1 as [<-|[<-|[]]].
        - destruct w as [|c w']; [reflexivity|]. simpl in Hw.
          apply andb_prop in Hw as [Hc _]. cbn [append].
          destruct (Ascii.eqb c ".") eqn:Hd; [|reflexivity].
          apply Ascii.eqb_eq in Hd. subst c. discriminate.
        - reflexivity. }
      rewrite E, lstrip_space_app by exact Hw. cbn [lstrip append].
      change (is_space "t") with false. cbn iota. rewrite Ascii.eqb_refl, andb_true_l.
      destruct Hd2 as [<-|[<-|[]]]; reflexivity.
Qed.

(** C8. [resolve_self_titled] returns the artist name (stripped of
    surrounding whitespace) exactly when the stripped, lower-cased album
    text has the shape [self_titled_shape]: [s], optional spacing, a slash,
    optional spacing, [t]; or [s], an optional dot, optional spacing, [t],
    an optional dot. Any other album text is returned unchanged. On the
    spec's examples it gives [King Crimson] and [X]. *)
Theorem resolve_self_titled_spec :
  (forall album artist, self_titled_shape (lower (strip album)) ->
     resolve_self_titled album artist = strip artist)
  /\ (forall album artist, ~ self_titled_shape (lower (strip album)) ->
     resolve_self_titled album artist = album)
  /\ resolve_self_titled "s/t" "King Crimson" = "King Crimson"
  /\ resolve_self_titled "S.T." "X" = "X".
Proof.
  split; [|split; [|split]].
  - intros album artist H. apply is_self_titled_token_shape in H.
    unfold resolve_self_titled. rewrite H. reflexivity.
  - intros album artist H. unfold resolve_self_titled.
    destruct (is_self_titled_token (lower (strip album))) eqn:E; [|reflexivity].
    exfalso. apply H, is_self_titled_token_shape, E.
  - reflexivity.
  - reflexivity.
Qed.

Lemma resolve_self_titled_spec_witness :
  resolve_self_titled " s / T " " Yes " = "Yes"
  /\ resolve_self_titled "S. t." "Gentle Giant" = "Gentle Giant"
  /\ resolve_self_titled "s/t/" "Yes" = "s/t/".
Proof.
  split; [|split].
  - apply (proj1 resolve_self_titled_spec). left. exists " ", " ".
    split; [reflexivity|split; [reflexivity|]]. vm_compute. reflexivity.
  - apply (proj1 resolve_self_titled_spec). right. exists ".", " ", ".".
    split; [right; left; reflexivity|split; [reflexivity|split; [right; left; reflexivity|]]].
    vm_compute. reflexivity.
  - apply (proj1 (proj2 resolve_self_titled_spec)).
    rewrite <- is_self_titled_token_shape. vm_compute. discriminate.
Defined.

(** ** C10 *)

(** C10. Year-only album titles are normalized asymmetrically: a candidate
    album whose normalized text is one to three four-digit tokens becomes
    empty (e.g. [\[1994\]]), while a target album that is a bare four-digit
    token (e.g. [1984]) is kept, since the target side removes a year only
    when whitespace follows it. *)
Theorem year_only_album_asymmetry :
  (forall s ys, normalize_text s = String.concat " " ys -> 1 <= length ys <= 3 ->
     Forall four_digits ys -> normalize_album_for_match s true = EmptyString)
  /\ normalize_album_for_match "[1994]" true = EmptyString
  /\ (forall y, four_digits y -> normalize_album_for_match y false = y)
  /\ normalize_album_for_match "1984" false = "1984".
Proof.
  split; [|split; [|split]].
  - intros s ys Hn Hlen Hys. unfold normalize_album_for_match. rewrite Hn.
    simpl (if true then _ else _). rewrite strip_year_tokens_concat; [reflexivity|exact Hys|lia].
  - reflexivity.
  - intros y Hy. pose proof Hy as (a & b & c & d & Ha & Hb & Hc & Hd & Ey).
    assert (Hcl : clean y).
    { apply digits_clean. subst y. simpl. rewrite Ha, Hb, Hc, Hd. reflexivity. }
    assert (Hart : strip_article y = y) by (subst y; apply strip_article_digit, Ha).
    assert (Hel : strip_elision y = y) by (subst y; apply strip_elision_digit, Ha).
    assert (Hyr : strip_one_year y = y).
    { unfold strip_one_year. subst y. simpl. rewrite Ha, Hb, Hc, Hd. reflexivity. }
    unfold normalize_album_for_match.
    rewrite (normalize_text_clean y Hcl), Hart. simpl (if false then _ else _).
    rewrite Hyr, Hart, Hel. destruct Hcl as [_ [_ [H3 H4]]]. unfold strip. rewrite H3, H4.
    reflexivity.
  - reflexivity.
Qed.

Lemma year_only_album_asymmetry_witness :
  normalize_album_for_match "[1970 (2021)]" true = EmptyString
  /\ normalize_album_for_match "2001" false = "2001".
Proof.
  split.
  - apply ((proj1 year_only_album_asymmetry) "[1970 (2021)]" ["1970"; "2021"]).
    + reflexivity.
    + simpl. lia.
    + repeat constructor.
      * exists "1"%char, "9"%char, "7"%char, "0"%char. repeat split.
      * exists "2"%char, "0"%char, "2"%char, "1"%char. repeat split.
  - apply (proj1 (proj2 (proj2 year_only_album_asymmetry))).
    exists "2"%char, "0"%char, "0"%char, "1"%char. repeat split.
Defined.

(** ** Year extraction *)

Lemma filter_filter_and : forall (f g : Z -> bool) l,
  filter f (filter g l) = filter (fun x => g x && f x) l.
Proof.
  intros f g. induction l as [|x l IH]; simpl; [reflexivity|].
  destruct (g x); simpl; [destruct (f x); simpl; rewrite IH; reflexivity|exact IH].
Qed.

Lemma zmem_app1 : forall z out y, zmem z (out ++ [y])%list = zmem z out || Z.eqb z y.
Proof.
  intros z out y. unfold zmem. rewrite existsb_app. simpl. rewrite orb_false_r. reflexivity.
Qed.

Lemma add_new_spec : forall l out,
  add_new out l = (out ++ filter (fun y => negb (zmem y out)) (nodup_first l))%list.
Proof.
  induction l as [|y l IH]; intros out; simpl.
  - rewrite app_nil_r. reflexivity.
  - rewrite IH. fold (zmem y out). destruct (zmem y out) eqn:Ey; simpl.
    + f_equal. rewrite filter_filter_and. apply filter_ext. intros z.
      destruct (Z.eqb z y) eqn:Ez; simpl; [|reflexivity].
      apply Z.eqb_eq in Ez. subst z. rewrite Ey. reflexivity.
    + rewrite <- app_assoc. simpl. f_equal. f_equal. rewrite filter_filter_and.
      apply filter_ext. intros z. rewrite zmem_app1, negb_orb, andb_comm. reflexivity.
Qed.

Lemma add_new_app : forall l1 l2 out, add_new out (l1 ++ l2)%list = add_new (add_new out l1) l2.
Proof. induction l1 as [|y l1 IH]; intros l2 out; simpl; [reflexivity|apply IH]. Qed.

Lemma fold_add_new : forall segs out,
  fold_left (fun out seg => add_new out (years_in false seg)) segs out
  = add_new out (flat_map (years_in false) segs).
Proof.
  induction segs as [|seg segs IH]; intros out; simpl; [reflexivity|].
  rewrite IH, add_new_app. reflexivity.
Qed.

Lemma zmem_nodup_first : forall z l, zmem z (nodup_first l) = zmem z l.
Proof.
  intros z. induction l as [|y l IH]; simpl; [reflexivity|].
  unfold zmem in *. simpl. destruct (Z.eqb z y) eqn:Ez; simpl; [reflexivity|].
  rewrite <- IH. clear IH. induction (nodup_first l) as [|x r IHr]; simpl; [reflexivity|].
  destruct (Z.eqb x y) eqn:Ex; simpl.
  - apply Z.eqb_eq in Ex. subst x. rewrite Ez. exact IHr.
  - rewrite IHr. reflexivity.
Qed.

Lemma in_nodup_first : forall y l, In y (nodup_first l) -> In y l.
Proof.
  intros y l H. assert (E : zmem y (nodup_first l) = true).
  { unfold zmem. apply existsb_exists. exists y. split; [exact H|apply Z.eqb_refl]. }
  rewrite zmem_nodup_first in E. unfold zmem in E. apply existsb_exists in E as [x [Hx Exy]].
  apply Z.eqb_eq in Exy. subst. exact Hx.
Qed.

Lemma nodup_add_new : forall l out, NoDup out -> NoDup (add_new out l).
Proof.
  induction l as [|y l IH]; intros out Hout; simpl; [exact Hout|].
  apply IH. destruct (existsb (Z.eqb y) out) eqn:E; [exact Hout|].
  apply NoDup_app; [exact Hout|constructor; [intros []|constructor]|].
  intros x Hx [Hyx|[]]. subst y. assert (existsb (Z.eqb x) out = true) by
    (apply existsb_exists; exists x; split; [exact Hx|apply Z.eqb_refl]).
  congruence.
Qed.

Lemma digit_val_range : forall c, is_digit c = true -> (0 <= digit_val c <= 9)%Z.
Proof.
  intros c H. unfold is_digit in H. apply andb_prop in H as [H1 H2].
  apply Nat.leb_le in H1. apply Nat.leb_le in H2. unfold digit_val. lia.
Qed.

Lemma year_at_range : forall s y, year_at s = Some y -> (1900 <= y <= 2099)%Z.
Proof.
  intros s y. unfold year_at.
  destruct s as [|a [|b [|c [|d r]]]]; try discriminate.
  match goal with |- context [if ?cond then _ else _] => destruct cond eqn:E end;
    [|discriminate].
  intros H.
  assert (Hy : (1000 * digit_val a + 100 * digit_val b + 10 * digit_val c + digit_val d)%Z = y)
    by congruence.
  subst y. clear H.
  apply andb_prop in E as [E _]. apply andb_prop in E as [E Ed].
  apply andb_prop in E as [E Ec].
  pose proof (digit_val_range c Ec). pose proof (digit_val_range d Ed).
  assert (V1 : digit_val "1" = 1%Z) by reflexivity.
  assert (V9 : digit_val "9" = 9%Z) by reflexivity.
  assert (V2 : digit_val "2" = 2%Z) by reflexivity.
  assert (V0 : digit_val "0" = 0%Z) by reflexivity.
  apply orb_prop in E as [E|E]; apply andb_prop in E as [Ea Eb];
    apply Ascii.eqb_eq in Ea; apply Ascii.eqb_eq in Eb; subst a b; rewrite ?V1, ?V9, ?V2, ?V0; lia.
Qed.

Lemma years_in_range : forall s b, Forall (fun y => 1900 <= y <= 2099)%Z (years_in b s).
Proof.
  induction s as [|a r IH]; intros b; cbn [years_in]; [constructor|].
  apply Forall_app. split; [|apply IH].
  destruct b; [constructor|]. destruct (year_at (String a r)) as [y|] eqn:E; [|constructor].
  constructor; [eapply year_at_range; exact E|constructor].
Qed.

Lemma add_new_nil : forall l, add_new [] l = nodup_first l.
Proof.
  intros l. rewrite add_new_spec. simpl. induction (nodup_first l) as [|y r IH]; simpl;
    [reflexivity|rewrite IH; reflexivity].
Qed.

Lemma nodup_nodup_first : forall l, NoDup (nodup_first l).
Proof. intros l. rewrite <- add_new_nil. apply nodup_add_new. constructor. Qed.

(** ** C6 *)

(** C6 (counterexample): only years 19xx and 20xx are extracted, so the
    four-digit year 1850, inside brackets and standalone, is not found. *)
Lemma extract_years_skips_1850 : extract_years "[1850] 1850" = [].
Proof. reflexivity. Qed.

(** C6 (amended): [extract_years s] is the list of the distinct years, each at
    its first occurrence, of the matches of [(?<!\d)(19\d{2}|20\d{2})(?!\d)]
    found first in the bracket segments [\[(.*?)\]] of [s], in order, and then
    in the whole of [s]; every returned year lies in 1900..2099, no year is
    repeated, and [extract_years] of [\[1973 (2004)\] Title] is [1973; 2004]. *)
Theorem extract_years_spec : forall s,
  extract_years s
    = nodup_first (flat_map (years_in false) (bracket_segments None s) ++ years_in false s)%list
  /\ NoDup (extract_years s)
  /\ Forall (fun y => 1900 <= y <= 2099)%Z (extract_years s)
  /\ extract_years "[1973 (2004)] Title" = [1973; 2004]%Z.
Proof.
  intros s.
  assert (E : extract_years s
    = nodup_first (flat_map (years_in false) (bracket_segments None s) ++ years_in false s)%list).
  { unfold extract_years. destruct (String.eqb s EmptyString) eqn:Es.
    - apply String.eqb_eq in Es. subst s. reflexivity.
    - rewrite fold_add_new, <- add_new_app. apply add_new_nil. }
  split; [exact E|]. rewrite E. split; [apply nodup_nodup_first|]. split; [|reflexivity].
  apply Forall_forall. intros y Hy. apply in_nodup_first, in_app_or in Hy as [Hy|Hy].
  - apply in_flat_map in Hy as [seg [_ Hy]].
    exact (proj1 (Forall_forall _ _) (years_in_range seg false) y Hy).
  - exact (proj1 (Forall_forall _ _) (years_in_range s false) y Hy).
Qed.

(** ** Scores *)

Lemma ge_iff : forall x z, ge x z = true <-> (qZ z <= x)%Q.
Proof. intros x z. unfold ge. apply Qle_bool_iff. Qed.

Lemma qZ_le : forall a b, (a <= b)%Z -> (qZ a <= qZ b)%Q.
Proof. intros a b H. unfold qZ. rewrite <- Zle_Qle. exact H. Qed.

Lemma qmax_ge_l : forall x y, (x <= qmax x y)%Q.
Proof.
  intros x y. unfold qmax. destruct (Qle_bool x y) eqn:E; [apply Qle_bool_iff; exact E|].
  apply Qle_refl.
Qed.

Lemma qmax_ge_r : forall x y, (y <= qmax x y)%Q.
Proof.
  intros x y. unfold qmax. destruct (Qle_bool x y) eqn:E; [apply Qle_refl|].
  assert (~ (x <= y)%Q) by (intros H; apply Qle_bool_iff in H; congruence). lra.
Qed.

Lemma qmax_le : forall x y b, (x <= b)%Q -> (y <= b)%Q -> (qmax x y <= b)%Q.
Proof. intros x y b Hx Hy. unfold qmax. destruct (Qle_bool x y); assumption. Qed.

Lemma qmin_100_ge : forall z x, (z <= 100)%Q -> (z <= x)%Q -> (z <= qmin_100 x)%Q.
Proof. intros z x Hz Hx. unfold qmin_100. destruct (Qle_bool 100 x); assumption. Qed.

Lemma norm_distance_le_100 : forall d n, (norm_distance d n <= 100)%Q.
Proof.
  intros d n. unfold norm_distance. destruct (Nat.eqb n 0); [apply Qle_refl|].
  rewrite Qred_correct.
  assert (Hd : (0 <= inject_Z (Z.of_nat d))%Q) by (unfold Qle; simpl; lia).
  assert (Hn : (0 <= / inject_Z (Z.of_nat n))%Q)
    by (apply Qinv_le_0_compat; unfold Qle; simpl; lia).
  assert (H : (0 <= 100 * inject_Z (Z.of_nat d) / inject_Z (Z.of_nat n))%Q).
  { unfold Qdiv. apply Qmult_le_0_compat; [|exact Hn].
    apply Qmult_le_0_compat; [unfold Qle; simpl; lia|exact Hd]. }
  lra.
Qed.

Lemma ratio_le_100 : forall a b, (ratio a b <= 100)%Q.
Proof. intros a b. apply norm_distance_le_100. Qed.

Lemma token_set_ratio_le_100 : forall a b, (token_set_ratio a b <= 100)%Q.
Proof.
  intros a b. unfold token_set_ratio.
  repeat match goal with
  | |- context [if ?c then _ else _] => destruct c
  end;
  repeat apply qmax_le; try apply norm_distance_le_100; unfold Qle; simpl; lia.
Qed.

(** A candidate that passes both gates scores at least the cutoff. *)
Lemma hit_score_ge_cutoff : forall t cutoff c ty,
  strong_album_ok t cutoff c = true -> (qZ cutoff <= hit_score t c ty)%Q.
Proof.
  intros t cutoff c ty H. unfold strong_album_ok in H.
  destruct (_ && _ && _) in H; [discriminate|].
  apply andb_prop in H as [H _]. apply ge_iff in H.
  pose proof (token_set_ratio_le_100 (t_album t) (c_album_n c)) as Hle.
  fold (album_token_score t c) in Hle.
  assert (Ha : (qZ cutoff <= album_score t c)%Q)
    by (eapply Qle_trans; [exact H|apply qmax_ge_l]).
  assert (Hs : (qZ cutoff <= qmax (label_score t c) (album_score t c))%Q)
    by (eapply Qle_trans; [exact Ha|apply qmax_ge_r]).
  assert (H100 : (qZ cutoff <= 100)%Q) by (eapply Qle_trans; [exact H|exact Hle]).
  unfold hit_score. eapply Qle_trans; [|apply qmax_ge_r].
  apply qmin_100_ge; [exact H100|].
  destruct (year_diff c ty) as [[|[p|p|]|p]|]; try exact Hs;
    apply qmin_100_ge; try exact H100; rewrite Qred_correct; lra.
Qed.

Lemma in_insert_hit : forall h x l, In x (insert_hit h l) <-> x = h \/ In x l.
Proof.
  intros h x l. assert (Hs : h = x <-> x = h) by (split; intros; subst; reflexivity).
  induction l as [|h' l IH]; simpl.
  - rewrite Hs. tauto.
  - destruct (key_le h h'); simpl; [rewrite Hs; tauto|]. rewrite IH. tauto.
Qed.

Lemma in_sort_hits : forall x l, In x (sort_hits l) <-> In x l.
Proof.
  intros x l. unfold sort_hits. induction l as [|h l IH]; simpl; [tauto|].
  rewrite in_insert_hit, IH. split; intros [->|Hx]; auto.
Qed.

Lemma in_main_hits : forall t cutoff ty cs h,
  In h (main_hits t cutoff ty cs) ->
  exists c, In c cs /\ main_hit t cutoff ty c = Some h.
Proof.
  intros t cutoff ty cs h H. unfold main_hits in H. apply in_flat_map in H as [c [Hc Hh]].
  exists c. split; [exact Hc|].
  destruct (main_hit t cutoff ty c) as [h'|]; [destruct Hh as [<-|[]]; reflexivity|destruct Hh].
Qed.

Lemma main_hits_score_ge : forall t cutoff ty cs c s d,
  In (c, s, d) (main_hits t cutoff ty cs) -> (qZ cutoff <= s)%Q.
Proof.
  intros t cutoff ty cs c s d H. apply in_main_hits in H as [c' [_ Hm]].
  unfold main_hit in Hm.
  destruct (negb (artist_ok t cutoff c') || negb (strong_album_ok t cutoff c')) eqn:E;
    [discriminate|].
  apply orb_false_iff in E as [_ E]. apply negb_false_iff in E.
  injection Hm as _ <- _. apply hit_score_ge_cutoff. exact E.
Qed.

Lemma unique_in : forall A (l : list A) x, unique l = Some x -> In x l.
Proof.
  intros A [|a [|b l]] x H; simpl in H; try discriminate.
  injection H as <-. left. reflexivity.
Qed.

Lemma best_match_cons : forall ta tb c0 cs cutoff ty,
  best_match ta tb (c0 :: cs) cutoff ty
  = match main_hits (make_target ta tb) cutoff ty (c0 :: cs) with
    | [] => fallbacks (make_target ta tb) cutoff ty (c0 :: cs)
    | hits => select_top cutoff hits
    end.
Proof. reflexivity. Qed.

Lemma fallbacks_score : forall t cutoff ty cs c sc,
  fallbacks t cutoff ty cs = Some (c, sc) ->
     sc = qZ (Z.max 90 cutoff)
     \/ (sc = qZ (Z.max 92 cutoff)
         /\ unique (prefix_candidates t cutoff cs) = None
         /\ segment_ok t c = true
         /\ exists y, ty = Some y /\ y <> EmptyString /\ is_substring y (album c) = true).
Proof.
  intros t cutoff ty cs c sc H. unfold fallbacks in H.
  destruct (unique (prefix_candidates t cutoff cs)) as [r|] eqn:Ep.
  - injection H as ->. apply unique_in in Ep. unfold prefix_candidates in Ep.
    apply in_map_iff in Ep as [c' [Ec _]]. injection Ec as _ <-. left. reflexivity.
  - destruct (unique (segment_candidates t cutoff ty cs)) as [r|] eqn:Es.
    + injection H as ->. apply unique_in in Es. unfold segment_candidates in Es.
      apply in_map_iff in Es as [c' [Ec Hin]]. apply filter_In in Hin as [_ Hseg].
      injection Ec as <- <-. unfold segment_score.
      destruct ty as [y|]; [|left; reflexivity].
      destruct (negb (String.eqb y EmptyString)) eqn:Ey; [|left; reflexivity].
      destruct (is_substring y (album c')) eqn:Ei; [|left; reflexivity].
      right. split; [reflexivity|]. split; [reflexivity|]. split; [exact Hseg|].
      exists y. split; [reflexivity|]. split; [|exact Ei].
      intros ->. discriminate Ey.
    + apply unique_in in H. unfold contains_candidates in H.
      apply in_map_iff in H as [c' [Ec _]]. injection Ec as _ <-. left. reflexivity.
Qed.

Lemma select_top_score : forall cutoff hits c sc,
  select_top cutoff hits = Some (c, sc) -> (qZ cutoff <= sc)%Q.
Proof.
  intros cutoff hits c sc H. unfold select_top in H.
  destruct (sort_hits hits) as [|[[tc ts] td] rest]; [discriminate|].
  destruct (ge ts cutoff) eqn:Eg; [|discriminate].
  injection H as <- <-. apply ge_iff. exact Eg.
Qed.

(** ** C2 *)

(** C2: whatever [best_match] returns scores at least [score_cutoff]; when no
    candidate passes the gates the score is [max(90, score_cutoff)], or
    [max(92, score_cutoff)] only from the segment fallback (the prefix
    fallback having no unique candidate) when the target year is a non-empty
    substring of the candidate's raw album text. *)
Theorem best_match_score_at_least_cutoff : forall ta tb cs cutoff ty c sc,
  best_match ta tb cs cutoff ty = Some (c, sc) ->
  (qZ cutoff <= sc)%Q /\
  (main_hits (make_target ta tb) cutoff ty cs = [] ->
     sc = qZ (Z.max 90 cutoff)
     \/ (sc = qZ (Z.max 92 cutoff)
         /\ unique (prefix_candidates (make_target ta tb) cutoff cs) = None
         /\ segment_ok (make_target ta tb) c = true
         /\ exists y, ty = Some y /\ y <> EmptyString /\ is_substring y (album c) = true)).
Proof.
  intros ta tb cs cutoff ty c sc H.
  destruct cs as [|c0 cs]; [discriminate|]. rewrite best_match_cons in H.
  destruct (main_hits (make_target ta tb) cutoff ty (c0 :: cs)) as [|h hs] eqn:Eh.
  - pose proof (fallbacks_score _ _ _ _ _ _ H) as F.
    split; [|intros _; exact F].
    destruct F as [->|[-> _]]; apply qZ_le; lia.
  - split; [exact (select_top_score _ _ _ _ H)|intros Hn; discriminate Hn].
Qed.

(** ** C9 *)

(** C9: once some candidate passes both gates, [best_match] takes the top hit
    of the sort by year bucket and score and returns it if it scores at least
    [score_cutoff] and nothing otherwise, without any fallback; moreover every
    hit scores at least [score_cutoff], so the top hit is always returned. *)
Theorem best_match_hits_no_fallback : forall ta tb cs cutoff ty,
  main_hits (make_target ta tb) cutoff ty cs <> [] ->
  exists top_c top_s top_d rest,
    sort_hits (main_hits (make_target ta tb) cutoff ty cs) = (top_c, top_s, top_d) :: rest
    /\ best_match ta tb cs cutoff ty
       = (if ge top_s cutoff then Some (top_c, top_s) else None)
    /\ ge top_s cutoff = true.
Proof.
  intros ta tb cs cutoff ty Hne.
  destruct cs as [|c0 cs]; [contradiction Hne; reflexivity|].
  destruct (sort_hits (main_hits (make_target ta tb) cutoff ty (c0 :: cs)))
    as [|[[tc ts] td] rest] eqn:Es.
  - destruct (main_hits (make_target ta tb) cutoff ty (c0 :: cs)) as [|h hs] eqn:Eh;
      [contradiction Hne; reflexivity|].
    exfalso. assert (Hin : In h (sort_hits (h :: hs))) by (apply in_sort_hits; left; reflexivity).
    rewrite Es in Hin. destruct Hin.
  - exists tc, ts, td, rest. split; [reflexivity|].
    assert (Hin : In (tc, ts, td) (main_hits (make_target ta tb) cutoff ty (c0 :: cs)))
      by (apply in_sort_hits; rewrite Es; left; reflexivity).
    split.
    + rewrite best_match_cons.
      destruct (main_hits (make_target ta tb) cutoff ty (c0 :: cs)) as [|h hs] eqn:Eh;
        [contradiction Hne; reflexivity|].
      unfold select_top. rewrite Es. reflexivity.
    + apply ge_iff. eapply main_hits_score_ge. exact Hin.
Qed.

Lemma best_match_hits_no_fallback_witness :
  exists top_c top_s top_d rest,
    sort_hits (main_hits (make_target "King Crimson" "In the Court of the Crimson King")
                 80 (Some "1969") [king_crimson]) = (top_c, top_s, top_d) :: rest
    /\ best_match "King Crimson" "In the Court of the Crimson King" [king_crimson] 80 (Some "1969")
       = (if ge top_s 80 then Some (top_c, top_s) else None)
    /\ ge top_s 80 = true.
Proof.
  apply best_match_hits_no_fallback. vm_compute. discriminate.
Defined.

Lemma best_match_score_at_least_cutoff_witness :
  best_match "Color Humano" "Color" [color_humano] 85 None = Some (color_humano, qZ 90)
  /\ (qZ 85 <= qZ 90)%Q.
Proof.
  assert (H : best_match "Color Humano" "Color" [color_humano] 85 None
              = Some (color_humano, qZ 90)) by (vm_compute; reflexivity).
  split; [exact H|].
  exact (proj1 (best_match_score_at_least_cutoff _ _ _ _ _ _ _ H)).
Defined.

(** ** An empty target artist *)

Lemma token_set_ratio_empty_l : forall x, token_set_ratio "" x = 0%Q.
Proof. reflexivity. Qed.

Lemma artist_ok_empty : forall t cutoff c, t_artist t = "" -> artist_ok t cutoff c = false.
Proof.
  intros t cutoff c Ht.
  assert (Hg : ge (artist_set_score t c) 85 = false)
    by (unfold artist_set_score; rewrite Ht; reflexivity).
  assert (Htt : t_tokens t = []) by (unfold t_tokens; rewrite Ht; reflexivity).
  assert (Hal : artist_alias_ok t cutoff c = false).
  { unfold artist_alias_ok. rewrite Htt. destruct (c_tokens c); reflexivity. }
  assert (Hco : collab_ok t cutoff c = false).
  { unfold collab_ok. rewrite Hg, andb_false_r. reflexivity. }
  assert (Hdu : duo_subset_ok t cutoff c = false).
  { unfold duo_subset_ok. rewrite Hg. apply andb_false_r. }
  unfold artist_ok, artist_ok_base. rewrite Hg, Hal, Hco, Hdu. reflexivity.
Qed.

Lemma main_hits_empty_artist : forall t cutoff ty cs,
  t_artist t = "" -> main_hits t cutoff ty cs = [].
Proof.
  intros t cutoff ty cs Ht. unfold main_hits.
  induction cs as [|c cs IH]; [reflexivity|]. cbn [flat_map].
  assert (Hm : main_hit t cutoff ty c = None)
    by (unfold main_hit; rewrite (artist_ok_empty t cutoff c Ht); reflexivity).
  rewrite Hm. exact IH.
Qed.

Lemma strong_artist_empty : forall t c, t_artist t = "" -> strong_artist t c = false.
Proof. intros t c Ht. unfold strong_artist. rewrite Ht. reflexivity. Qed.

Lemma filter_all_false : forall A (f : A -> bool) l, (forall x, f x = false) -> filter f l = [].
Proof.
  intros A f l Hf. induction l as [|x l IH]; simpl; [reflexivity|]. rewrite Hf. exact IH.
Qed.

Lemma fallbacks_empty_artist : forall t cutoff ty cs,
  t_artist t = "" -> fallbacks t cutoff ty cs = None.
Proof.
  intros t cutoff ty cs Ht.
  assert (Hp : filter (prefix_ok t) cs = []).
  { apply filter_all_false. intros c. unfold prefix_ok.
    rewrite (strong_artist_empty t c Ht). cbv zeta. apply andb_false_r. }
  assert (Hs : filter (segment_ok t) cs = []).
  { apply filter_all_false. intros c. unfold segment_ok.
    rewrite (strong_artist_empty t c Ht). cbv zeta. rewrite !andb_false_r. reflexivity. }
  assert (Hc : filter (contains_ok t) cs = []).
  { apply filter_all_false. intros c. unfold contains_ok.
    rewrite (strong_artist_empty t c Ht). cbv zeta. apply andb_false_r. }
  unfold fallbacks, prefix_candidates, segment_candidates, contains_candidates.
  rewrite Hp, Hs, Hc. reflexivity.
Qed.

(** ** C5 *)

(** C5 (the code diverges): the normalisers map the empty string to the empty
    string, and a target artist that normalises to empty is never matched; but
    a target album that normalises to empty is matched by the prefix fallback
    (the empty token prefix followed by the token [and]) when the candidate
    album starts with [And]: Genesis with an empty album is matched to
    And Then There Were Three with score 90 at cutoff 85. *)
Theorem empty_target_album_matched :
  normalize_text "" = ""
  /\ normalize_album_for_match "" true = ""
  /\ normalize_album_for_match "" false = ""
  /\ normalize_artist "" = ""
  /\ (forall ta tb cs cutoff ty,
        normalize_artist ta = "" -> best_match ta tb cs cutoff ty = None)
  /\ t_album (make_target "Genesis" "") = ""
  /\ main_hits (make_target "Genesis" "") 85 None [genesis_three] = []
  /\ prefix_candidates (make_target "Genesis" "") 85 [genesis_three] = [(genesis_three, 90%Q)]
  /\ best_match "Genesis" "" [genesis_three] 85 None = Some (genesis_three, 90%Q).
Proof.
  split; [reflexivity|]. split; [reflexivity|]. split; [reflexivity|].
  split; [reflexivity|].
  split.
  - intros ta tb cs cutoff ty Ha. destruct cs as [|c0 cs]; [reflexivity|].
    rewrite best_match_cons.
    rewrite (main_hits_empty_artist (make_target ta tb) cutoff ty (c0 :: cs) Ha).
    exact (fallbacks_empty_artist (make_target ta tb) cutoff ty (c0 :: cs) Ha).
  - split; [reflexivity|]. split; [vm_compute; reflexivity|].
    split; vm_compute; reflexivity.
Qed.

(** ** C1 *)

(** C1 (the code diverges): for the target Color Humano / Color and the
    candidate album Color Humano at cutoff 85, the dual album gate rejects
    the candidate and neither the prefix nor the segment fallback has a
    candidate, but the containment fallback accepts it ([color] is a
    substring of [color humano]), so [best_match] returns it with score 90. *)
Theorem color_humano_matched_by_containment :
  strong_album_ok (make_target "Color Humano" "Color") 85 color_humano = false
  /\ main_hits (make_target "Color Humano" "Color") 85 None [color_humano] = []
  /\ prefix_candidates (make_target "Color Humano" "Color") 85 [color_humano] = []
  /\ segment_candidates (make_target "Color Humano" "Color") 85 None [color_humano] = []
  /\ contains_ok (make_target "Color Humano" "Color") color_humano = true
  /\ best_match "Color Humano" "Color" [color_humano] 85 None = Some (color_humano, 90%Q).
Proof. repeat split; vm_compute; reflexivity. Qed.

(** ** The artist gate as propositions *)

Lemma mem_true : forall x l, mem x l = true <-> In x l.
Proof.
  intros x l. unfold mem. rewrite existsb_exists. split.
  - intros [y [Hy E]]. apply String.eqb_eq in E. subst y. exact Hy.
  - intros H. exists x. split; [exact H|apply String.eqb_refl].
Qed.

Lemma subset_true : forall a b, subset a b = true <-> incl a b.
Proof.
  intros a b. unfold subset, incl. rewrite forallb_forall.
  split; intros H x Hx; apply mem_true; apply H; exact Hx.
Qed.

Lemma negb_is_nil : forall A (l : list A), negb (is_nil l) = true <-> l <> [].
Proof. intros A [|x l]; simpl; split; congruence. Qed.

Lemma in_extras : forall t c tok,
  In tok (extras t c) <-> In tok (t_tokens t) /\ ~ In tok (c_tokens c) /\ tok <> "s".
Proof.
  intros t c tok. unfold extras, set_diff. rewrite !filter_In, negb_true_iff, negb_true_iff.
  rewrite String.eqb_neq. split.
  - intros [[Ht Hm] Hs]. split; [exact Ht|]. split; [|exact Hs].
    intros Hc. apply mem_true in Hc. congruence.
  - intros [Ht [Hc Hs]]. split; [split; [exact Ht|]|exact Hs].
    destruct (mem tok (c_tokens c)) eqn:E; [apply mem_true in E; contradiction|reflexivity].
Qed.

Lemma length_pos : forall A (l : list A), Nat.ltb 0 (length l) = true <-> exists x, In x l.
Proof.
  intros A [|x l]; simpl; split.
  - discriminate.
  - intros [y []].
  - intros _. exists x. left. reflexivity.
  - reflexivity.
Qed.

Lemma artist_alias_ok_iff : forall t cutoff c,
  artist_alias_ok t cutoff c = true <->
  c_tokens c <> [] /\ incl (c_tokens c) (t_tokens t) /\ 2 <= length (c_tokens c)
  /\ (exists tok, In tok (t_tokens t) /\ ~ In tok (c_tokens c) /\ tok <> "s")
  /\ (forall tok, In tok (t_tokens t) -> ~ In tok (c_tokens c) -> tok <> "s" ->
        In tok allowed_extras)
  /\ (qZ (Z.max cutoff 95) <= album_score t c)%Q.
Proof.
  intros t cutoff c. unfold artist_alias_ok.
  rewrite !andb_true_iff, negb_is_nil, subset_true, Nat.leb_le, length_pos, forallb_forall,
    ge_iff.
  split.
  - intros [[[[[H1 H2] H3] [x Hx]] H5] H6]. apply in_extras in Hx.
    repeat split; try assumption.
    + exists x. exact Hx.
    + intros tok Ht Hc Hs. apply mem_true, H5, in_extras. auto.
  - intros [H1 [H2 [H3 [[x Hx] [H5 H6]]]]]. repeat split; try assumption.
    + exists x. apply in_extras. exact Hx.
    + intros tok Htok. apply in_extras in Htok as [Ht [Hc Hs]]. apply mem_true, H5; assumption.
Qed.

Lemma collab_ok_iff : forall t cutoff c,
  collab_ok t cutoff c = true <->
  incl (t_tokens t) (c_tokens c) /\ (qZ (Z.max cutoff 95) <= album_score t c)%Q
  /\ (qZ 85 <= artist_set_score t c)%Q
  /\ (has_collab_marker (artist c) = true \/ length (c_tokens c) <= length (t_tokens t) + 2)
  /\ 2 <= length (t_tokens t).
Proof.
  intros t cutoff c. unfold collab_ok.
  rewrite !andb_true_iff, orb_true_iff, subset_true, !ge_iff, !Nat.leb_le. tauto.
Qed.

Lemma duo_subset_ok_iff : forall t cutoff c,
  duo_subset_ok t cutoff c = true <->
  has_multi_target t = true /\ incl (c_tokens c) (t_tokens t) /\ 2 <= length (c_tokens c)
  /\ (qZ (Z.max cutoff 95) <= album_score t c)%Q
  /\ (qZ 85 <= artist_set_score t c)%Q.
Proof.
  intros t cutoff c. unfold duo_subset_ok.
  rewrite !andb_true_iff, subset_true, !ge_iff, Nat.leb_le. tauto.
Qed.

Lemma subset_false : forall a b, subset a b = false <-> ~ incl a b.
Proof.
  intros a b. rewrite <- subset_true.
  destruct (subset a b); split; intros H; try discriminate; try reflexivity.
  exfalso. apply H. reflexivity.
Qed.

Lemma single_token_superset_iff : forall t c,
  single_token_superset t c = true <->
  length (t_tokens t) = 1 /\ incl (t_tokens t) (c_tokens c) /\ ~ incl (c_tokens c) (t_tokens t).
Proof.
  intros t c. unfold single_token_superset.
  rewrite !andb_true_iff, Nat.eqb_eq, negb_true_iff.
  destruct (subset (c_tokens c) (t_tokens t)) eqn:E1,
    (subset (t_tokens t) (c_tokens c)) eqn:E2; simpl;
    [apply subset_true in E1|apply subset_true in E1|apply subset_false in E1|apply subset_false in E1];
    [apply subset_true in E2|apply subset_false in E2|apply subset_true in E2|apply subset_false in E2];
    intuition discriminate.
Qed.

(** ** C3 *)

(** C3 (counterexample): with the target artist Barbara Thompson's
    Paraphernalia, the candidate artist Barbara Thompson and the album Wilde
    Tales at cutoff 85, the artist scores fail the first test, the extra target
    token [s] is not in the allow-list, the collaboration and duo-subset
    exceptions fail, and still the gate passes (the code ignores the token
    [s]), and [best_match] returns the candidate. *)
Lemma barbara_thompson_alias_ignores_s :
  artist_ok (make_target "Barbara Thompson's Paraphernalia" "Wilde Tales") 85 barbara_thompson
    = true
  /\ (ge (artist_set_score (make_target "Barbara Thompson's Paraphernalia" "Wilde Tales")
            barbara_thompson) 85
      && ge (artist_sort_score (make_target "Barbara Thompson's Paraphernalia" "Wilde Tales")
               barbara_thompson) 90) = false
  /\ mem "s" (t_tokens (make_target "Barbara Thompson's Paraphernalia" "Wilde Tales")) = true
  /\ mem "s" (c_tokens barbara_thompson) = false
  /\ mem "s" allowed_extras = false
  /\ collab_ok (make_target "Barbara Thompson's Paraphernalia" "Wilde Tales") 85
       barbara_thompson = false
  /\ duo_subset_ok (make_target "Barbara Thompson's Paraphernalia" "Wilde Tales") 85
       barbara_thompson = false
  /\ best_match "Barbara Thompson's Paraphernalia" "Wilde Tales" [barbara_thompson] 85 None
     = Some (barbara_thompson, 100%Q).
Proof. repeat split; vm_compute; reflexivity. Qed.

(** C3 (amended): a candidate passes the artist gate exactly when (a) the
    artist token-set score is at least 85 and the token-sort score at least
    90, or the alias exception holds (the candidate tokens, at least two, are
    a subset of the target tokens, some target token other than [s] is
    missing from them and every such token is in the allow-list), or the
    collaboration or the duo-subset exception holds, each exception with an
    album score of at least [max(score_cutoff, 95)]; and (b) when the target
    has a single token and the candidate tokens strictly contain it, the
    target is self-titled, the candidate album equals the candidate artist
    after normalisation and the no-space album ratio is at least 99.
    Darryl Way / Canis Lupus matches the candidate Darryl Way's Wolf. *)
Theorem artist_gate_spec :
  (forall t cutoff c,
    artist_ok t cutoff c = true <->
    (((qZ 85 <= artist_set_score t c) /\ (qZ 90 <= artist_sort_score t c))%Q
     \/ (c_tokens c <> [] /\ incl (c_tokens c) (t_tokens t) /\ 2 <= length (c_tokens c)
         /\ (exists tok, In tok (t_tokens t) /\ ~ In tok (c_tokens c) /\ tok <> "s")
         /\ (forall tok, In tok (t_tokens t) -> ~ In tok (c_tokens c) -> tok <> "s" ->
               In tok allowed_extras)
         /\ (qZ (Z.max cutoff 95) <= album_score t c)%Q)
     \/ (incl (t_tokens t) (c_tokens c)
         /\ (qZ (Z.max cutoff 95) <= album_score t c)%Q
         /\ (qZ 85 <= artist_set_score t c)%Q
         /\ (has_collab_marker (artist c) = true
             \/ length (c_tokens c) <= length (t_tokens t) + 2)
         /\ 2 <= length (t_tokens t))
     \/ (has_multi_target t = true /\ incl (c_tokens c) (t_tokens t)
         /\ 2 <= length (c_tokens c)
         /\ (qZ (Z.max cutoff 95) <= album_score t c)%Q
         /\ (qZ 85 <= artist_set_score t c)%Q))
    /\ (length (t_tokens t) = 1 /\ incl (t_tokens t) (c_tokens c)
        /\ ~ incl (c_tokens c) (t_tokens t) ->
        t_is_self_titled t = true /\ c_album_n c = c_artist_n c
        /\ (qZ 99 <= album_ns_score t c)%Q))
  /\ best_match "Darryl Way" "Canis Lupus" [darryl_way_wolf] 85 None
     = Some (darryl_way_wolf, 100%Q).
Proof.
  split; [|vm_compute; reflexivity].
  intros t cutoff c.
  assert (Hb : artist_ok_base t cutoff c = true <->
    (((qZ 85 <= artist_set_score t c) /\ (qZ 90 <= artist_sort_score t c))%Q
     \/ (c_tokens c <> [] /\ incl (c_tokens c) (t_tokens t) /\ 2 <= length (c_tokens c)
         /\ (exists tok, In tok (t_tokens t) /\ ~ In tok (c_tokens c) /\ tok <> "s")
         /\ (forall tok, In tok (t_tokens t) -> ~ In tok (c_tokens c) -> tok <> "s" ->
               In tok allowed_extras)
         /\ (qZ (Z.max cutoff 95) <= album_score t c)%Q)
     \/ (incl (t_tokens t) (c_tokens c)
         /\ (qZ (Z.max cutoff 95) <= album_score t c)%Q
         /\ (qZ 85 <= artist_set_score t c)%Q
         /\ (has_collab_marker (artist c) = true
             \/ length (c_tokens c) <= length (t_tokens t) + 2)
         /\ 2 <= length (t_tokens t))
     \/ (has_multi_target t = true /\ incl (c_tokens c) (t_tokens t)
         /\ 2 <= length (c_tokens c)
         /\ (qZ (Z.max cutoff 95) <= album_score t c)%Q
         /\ (qZ 85 <= artist_set_score t c)%Q))).
  { unfold artist_ok_base.
    rewrite !orb_true_iff, andb_true_iff, !ge_iff, artist_alias_ok_iff, collab_ok_iff,
      duo_subset_ok_iff.
    tauto. }
  assert (Hc : t_is_self_titled t && String.eqb (c_album_n c) (c_artist_n c)
               && ge (album_ns_score t c) 99 = true <->
               t_is_self_titled t = true /\ c_album_n c = c_artist_n c
               /\ (qZ 99 <= album_ns_score t c)%Q).
  { rewrite !andb_true_iff, String.eqb_eq, ge_iff. tauto. }
  rewrite <- Hb, <- single_token_superset_iff, <- Hc.
  unfold artist_ok.
  destruct (artist_ok_base t cutoff c), (single_token_superset t c),
    (t_is_self_titled t && String.eqb (c_album_n c) (c_artist_n c)
     && ge (album_ns_score t c) 99); simpl; intuition congruence.
Qed.

(** ** Grouping and merging in [dedupe_entries] *)

Lemma keys_add_to_group : forall a e G,
  map fst (Dedupe.add_to_group a e G)
  = if existsb (fun k => String.eqb k a) (map fst G) then map fst G
    else (map fst G ++ [a])%list.
Proof.
  intros a e G. induction G as [|[k items] G IH]; simpl; [reflexivity|].
  destruct (String.eqb k a) eqn:E; simpl; [reflexivity|].
  rewrite IH. destruct (existsb _ (map fst G)); reflexivity.
Qed.

Lemma existsb_key : forall a keys, In a keys -> existsb (fun k => String.eqb k a) keys = true.
Proof.
  intros a keys H. apply existsb_exists. exists a. split; [exact H|apply String.eqb_refl].
Qed.

Lemma in_add_to_group : forall a e G k items,
  NoDup (map fst G) ->
  In (k, items) (Dedupe.add_to_group a e G) ->
  (k <> a /\ In (k, items) G)
  \/ (k = a /\ ((exists items0, In (a, items0) G /\ items = (items0 ++ [e])%list)
                \/ (~ In a (map fst G) /\ items = [e]))).
Proof.
  intros a e G. induction G as [|[k0 it0] G IH]; intros k items Hnd H; simpl in H.
  - destruct H as [H|[]]. injection H as <- <-. right. split; [reflexivity|].
    right. split; [intros []|reflexivity].
  - simpl in Hnd. inversion Hnd as [|? ? Hk0 Hnd']. subst.
    destruct (String.eqb k0 a) eqn:E.
    + apply String.eqb_eq in E. subst k0. destruct H as [H|H].
      * injection H as <- <-. right. split; [reflexivity|].
        left. exists it0. split; [left; reflexivity|reflexivity].
      * left. split; [|right; exact H].
        intros ->. apply Hk0. apply (in_map fst) in H. exact H.
    + destruct H as [H|H].
      * injection H as <- <-. left. split; [apply String.eqb_neq; exact E|left; reflexivity].
      * destruct (IH k items Hnd' H) as [[Hka HG]|[Hka [[i0 [Hi Hit]]|[Hn Hit]]]].
        -- left. split; [exact Hka|right; exact HG].
        -- right. split; [exact Hka|]. left. exists i0. split; [right; exact Hi|exact Hit].
        -- right. split; [exact Hka|]. right. split; [|exact Hit].
           intros [Hk|Hk]; [|contradiction]. simpl in Hk. subst. rewrite String.eqb_refl in E.
           discriminate.
Qed.

Lemma filter_none : forall A (f : A -> bool) l, (forall x, In x l -> f x = false) -> filter f l = [].
Proof.
  intros A f l Hf. induction l as [|x l IH]; simpl; [reflexivity|].
  rewrite (Hf x (or_introl eq_refl)). apply IH. intros y Hy. apply Hf. right. exact Hy.
Qed.

Lemma group_entries_app : forall l e,
  Dedupe.group_entries (l ++ [e])%list
  = Dedupe.add_to_group (normalize_artist (Dedupe.artist e)) e (Dedupe.group_entries l).
Proof. intros l e. unfold Dedupe.group_entries. rewrite fold_left_app. reflexivity. Qed.

(** The groups of [dedupe_entries]: one per normalised artist, holding the
    entries of that artist in their original order. *)
Lemma group_entries_spec : forall l,
  NoDup (map fst (Dedupe.group_entries l))
  /\ (forall k items, In (k, items) (Dedupe.group_entries l) ->
        items = filter (fun e => String.eqb (normalize_artist (Dedupe.artist e)) k) l)
  /\ (forall e, In e l -> In (normalize_artist (Dedupe.artist e)) (map fst (Dedupe.group_entries l))).
Proof.
  induction l as [|e l IH] using rev_ind.
  - split; [constructor|]. split; [intros k items []|intros e []].
  - destruct IH as [Hnd [Hit Hcov]]. rewrite group_entries_app.
    set (a := normalize_artist (Dedupe.artist e)).
    set (G := Dedupe.group_entries l).
    assert (Hkeys := keys_add_to_group a e G).
    split; [|split].
    + rewrite Hkeys. destruct (existsb _ (map fst G)) eqn:Ex; [exact Hnd|].
      apply NoDup_app; [exact Hnd|constructor; [intros []|constructor]|].
      intros x Hx [<-|[]]. apply existsb_key in Hx. congruence.
    + intros k items Hin. rewrite filter_app. simpl. fold a.
      destruct (in_add_to_group a e G k items Hnd Hin)
        as [[Hka HG]|[Hka [[i0 [Hi Hi0]]|[Hn Hi0]]]].
      * rewrite (Hit k items HG). assert (E : String.eqb a k = false)
          by (apply String.eqb_neq; intros ->; contradiction).
        rewrite E, app_nil_r. reflexivity.
      * subst k. rewrite String.eqb_refl, Hi0, (Hit a i0 Hi). reflexivity.
      * subst k. rewrite String.eqb_refl, Hi0.
        rewrite filter_none; [reflexivity|].
        intros x Hx. apply String.eqb_neq. intros Ex. apply Hn. rewrite <- Ex. apply Hcov, Hx.
    + intros x Hx. rewrite Hkeys. apply in_app_or in Hx as [Hx|[<-|[]]].
      * destruct (existsb _ (map fst G)); [apply Hcov, Hx|apply in_or_app; left; apply Hcov, Hx].
      * fold a. destruct (existsb (fun k => String.eqb k a) (map fst G)) eqn:Ex.
        -- apply existsb_exists in Ex as [k [Hk Ek]]. apply String.eqb_eq in Ek. subst k.
           exact Hk.
        -- apply in_or_app. right. left. reflexivity.
Qed.

Lemma merge_into_none : forall cutoff e kept,
  (forall k, In k kept -> ge (Dedupe.album_score e k) cutoff = false) ->
  Dedupe.merge_into cutoff e kept = None.
Proof.
  intros cutoff e kept H. induction kept as [|k kept IH]; simpl; [reflexivity|].
  rewrite (H k (or_introl eq_refl)), IH; [reflexivity|].
  intros k' Hk'. apply H. right. exact Hk'.
Qed.

Lemma merge_into_first : forall cutoff e pre k post,
  (forall k', In k' pre -> ge (Dedupe.album_score e k') cutoff = false) ->
  ge (Dedupe.album_score e k) cutoff = true ->
  Dedupe.merge_into cutoff e (pre ++ k :: post)%list
  = Some (pre ++ Dedupe.merge_year k e :: post)%list.
Proof.
  intros cutoff e pre k post Hpre Hk. induction pre as [|k' pre IH]; simpl.
  - rewrite Hk. reflexivity.
  - rewrite (Hpre k' (or_introl eq_refl)), IH; [reflexivity|].
    intros k'' Hk''. apply Hpre. right. exact Hk''.
Qed.

(** ** C7 *)

(** C7: [dedupe_entries] groups the entries by normalised artist (one group
    per artist, holding its entries in their original order) and folds each
    group with [dedupe_step]: an entry with no kept entry scoring at least
    [cutoff] against it is appended to the kept list; otherwise the first kept
    entry that does absorbs it, taking its year when the kept entry has none
    and the duplicate has one, and the duplicate is dropped. The example of
    Strangewings and Strange Wings gives one entry with the year 1975. *)
Theorem dedupe_entries_spec :
  (forall entries cutoff,
     Dedupe.dedupe_entries entries cutoff
     = flat_map (fun g => fold_left (Dedupe.dedupe_step cutoff) (snd g) [])
                (Dedupe.group_entries entries))
  /\ (forall entries,
        NoDup (map fst (Dedupe.group_entries entries))
        /\ (forall k items, In (k, items) (Dedupe.group_entries entries) ->
              items = filter (fun e => String.eqb (normalize_artist (Dedupe.artist e)) k)
                             entries)
        /\ (forall e, In e entries ->
              In (normalize_artist (Dedupe.artist e)) (map fst (Dedupe.group_entries entries))))
  /\ (forall cutoff kept e,
        (forall k, In k kept -> ge (Dedupe.album_score e k) cutoff = false) ->
        Dedupe.dedupe_step cutoff kept e = (kept ++ [e])%list)
  /\ (forall cutoff pre k post e,
        (forall k', In k' pre -> ge (Dedupe.album_score e k') cutoff = false) ->
        ge (Dedupe.album_score e k) cutoff = true ->
        Dedupe.dedupe_step cutoff (pre ++ k :: post)%list e
        = (pre ++ Dedupe.merge_year k e :: post)%list)
  /\ (forall k e,
        Dedupe.merge_year k e
        = Dedupe.mkEntry (Dedupe.artist k) (Dedupe.album k)
            (if negb (Dedupe.has_year k) && Dedupe.has_year e then Dedupe.year e
             else Dedupe.year k))
  /\ Dedupe.dedupe_entries
       [Dedupe.mkEntry "Artist" "Strangewings" None;
        Dedupe.mkEntry "Artist" "Strange Wings" (Some "1975")] 90
     = [Dedupe.mkEntry "Artist" "Strangewings" (Some "1975")].
Proof.
  split; [reflexivity|]. split; [exact group_entries_spec|].
  split.
  { intros cutoff kept e H. unfold Dedupe.dedupe_step. rewrite merge_into_none; [reflexivity|exact H]. }
  split.
  { intros cutoff pre k post e Hpre Hk. unfold Dedupe.dedupe_step.
    rewrite merge_into_first; [reflexivity|exact Hpre|exact Hk]. }
  split; [|vm_compute; reflexivity].
  intros [ka kb ky] e. unfold Dedupe.merge_year. simpl.
  destruct (negb (Dedupe.has_year _) && Dedupe.has_year e); reflexivity.
Qed.

(** * Further properties *)
(** * Further properties *)

(** ** Line splitting *)

Lemma concat_empty_cons : forall x l,
  String.concat EmptyString (x :: l) = x ++ String.concat EmptyString l.
Proof.
  intros x [|y l]; simpl; [symmetry; apply append_empty_r|reflexivity].
Qed.

Lemma splitlines_aux_line : forall t cur rest,
  no_line_break t = true ->
  splitlines_aux cur (t ++ newline ++ rest) = (cur ++ t) :: splitlines_aux EmptyString rest.
Proof.
  unfold newline. cbn [append].
  induction t as [|c t IH]; intros cur rest H.
  - simpl. rewrite append_empty_r. reflexivity.
  - simpl in H. apply andb_prop in H as [Hc Ht].
    apply negb_true_iff in Hc.
    assert (E13 : Ascii.eqb c (ascii_of_nat 13) = false).
    { destruct (Ascii.eqb_spec c (ascii_of_nat 13)) as [->|]; [discriminate|reflexivity]. }
    simpl. rewrite E13, Hc, IH by exact Ht.
    rewrite string_app_assoc. reflexivity.
Qed.

Lemma splitlines_lines : forall ts,
  (forall t, In t ts -> no_line_break t = true) ->
  splitlines_aux EmptyString (String.concat EmptyString (map (fun t => t ++ newline) ts)) = ts.
Proof.
  induction ts as [|t ts IH]; intros H; [reflexivity|].
  simpl map. rewrite concat_empty_cons, string_app_assoc.
  rewrite splitlines_aux_line by (apply H; left; reflexivity).
  rewrite IH by (intros u Hu; apply H; right; exact Hu). reflexivity.
Qed.

(** ** Sorting *)


Lemma str_ltb_asym : forall a b, str_ltb a b = true -> str_ltb b a = false.
Proof.
  induction a as [|x a IH]; intros [|y b]; simpl; try discriminate; try reflexivity.
  intros H.
  destruct (Nat.ltb_spec (code x) (code y)).
  - destruct (Nat.ltb_spec (code y) (code x)); [lia|].
    destruct (Nat.eqb_spec (code y) (code x)); [lia|reflexivity].
  - destruct (Nat.eqb_spec (code x) (code y)) as [Exy|]; [|discriminate].
    rewrite Exy, Nat.ltb_irrefl, Nat.eqb_refl. apply IH. exact H.
Qed.

Lemma insert_sorted_Sorted : forall x l,
  Sorted str_le l -> Sorted str_le (insert_sorted x l).
Proof.
  intros x l. induction l as [|y l IH]; intros Hs; simpl.
  - constructor; constructor.
  - destruct (str_ltb x y) eqn:E.
    + constructor; [exact Hs|]. constructor. unfold str_le. apply str_ltb_asym. exact E.
    + apply Sorted_inv in Hs as [Hl Hh]. constructor; [apply IH; exact Hl|].
      destruct l as [|z l]; simpl.
      * constructor. exact E.
      * destruct (str_ltb x z); constructor; [exact E|].
        apply HdRel_inv in Hh. exact Hh.
Qed.

Lemma insert_sorted_perm : forall x l, Permutation (insert_sorted x l) (x :: l).
Proof.
  intros x l. induction l as [|y l IH]; simpl; [reflexivity|].
  destruct (str_ltb x y); [reflexivity|].
  rewrite IH. apply perm_swap.
Qed.

Lemma sorted_Sorted : forall l, Sorted str_le (sorted l).
Proof.
  induction l as [|x l IH]; simpl; [constructor|]. apply insert_sorted_Sorted. exact IH.
Qed.

Lemma sorted_perm : forall l, Permutation (sorted l) l.
Proof.
  induction l as [|x l IH]; simpl; [reflexivity|].
  rewrite insert_sorted_perm. apply perm_skip. exact IH.
Qed.

(** ** [unique_preserve_order] *)

Lemma in_unique_from : forall l seen x,
  In x (unique_from seen l) <-> In x l /\ ~ In x seen.
Proof.
  induction l as [|y l IH]; intros seen x; simpl; [tauto|].
  destruct (mem y seen) eqn:E.
  - apply mem_true in E. rewrite IH. split.
    + intros [H1 H2]. tauto.
    + intros [[<-|H1] H2]; [contradiction|tauto].
  - assert (Hy : ~ In y seen) by (rewrite <- mem_true; rewrite E; discriminate).
    simpl. rewrite IH. simpl. split.
    + intros [<-|[H1 H2]]; tauto.
    + intros [[<-|H1] H2]; [left; reflexivity|].
      destruct (String.eqb_spec y x); [left; exact e|right; tauto].
Qed.

Lemma unique_from_NoDup : forall l seen, NoDup (unique_from seen l).
Proof.
  induction l as [|y l IH]; intros seen; simpl; [constructor|].
  destruct (mem y seen); [apply IH|].
  constructor; [|apply IH].
  rewrite in_unique_from. simpl. tauto.
Qed.

Lemma unique_from_id : forall l seen,
  NoDup l -> (forall x, In x l -> ~ In x seen) -> unique_from seen l = l.
Proof.
  induction l as [|y l IH]; intros seen Hl Hs; simpl; [reflexivity|].
  inversion Hl as [|? ? Hy Hl']; subst.
  destruct (mem y seen) eqn:E.
  - apply mem_true in E. exfalso. apply (Hs y); [left; reflexivity|exact E].
  - f_equal. apply IH; [exact Hl'|].
    intros x Hx [<-|Hx']; [contradiction|]. apply (Hs x); [right; exact Hx|exact Hx'].
Qed.

Lemma unique_from_ext : forall l s1 s2,
  (forall x, In x s1 <-> In x s2) -> unique_from s1 l = unique_from s2 l.
Proof.
  induction l as [|y l IH]; intros s1 s2 H; simpl; [reflexivity|].
  assert (E : mem y s1 = mem y s2).
  { destruct (mem y s1) eqn:E1, (mem y s2) eqn:E2; try reflexivity.
    - apply mem_true, H, mem_true in E1. congruence.
    - apply mem_true, H, mem_true in E2. congruence. }
  rewrite E. destruct (mem y s2); [apply IH; exact H|].
  f_equal. apply IH. intros x. simpl. rewrite H. tauto.
Qed.

Lemma unique_from_app_seen : forall l s t,
  unique_from (s ++ t) l = filter (fun x => negb (mem x s)) (unique_from t l).
Proof.
  induction l as [|y l IH]; intros s t; simpl; [reflexivity|].
  destruct (mem y t) eqn:Et.
  - assert (mem y (s ++ t) = true).
    { apply mem_true in Et. apply mem_true. apply in_or_app. right. exact Et. }
    rewrite H. apply IH.
  - destruct (mem y s) eqn:Es.
    + assert (mem y (s ++ t) = true).
      { apply mem_true in Es. apply mem_true. apply in_or_app. left. exact Es. }
      rewrite H. simpl. rewrite Es. simpl. rewrite <- IH.
      apply unique_from_ext. intros x. rewrite !in_app_iff. simpl.
      apply mem_true in Es. split; [tauto|]. intros [H1|[<-|H1]]; tauto.
    + assert (mem y (s ++ t) = false).
      { destruct (mem y (s ++ t)) eqn:E; [|reflexivity].
        apply mem_true, in_app_iff in E. destruct E as [E|E];
          apply mem_true in E; congruence. }
      rewrite H. simpl. rewrite Es. simpl. f_equal. rewrite <- IH.
      apply unique_from_ext. intros x. simpl. rewrite !in_app_iff. simpl. tauto.
Qed.

Lemma unique_from_app : forall a b seen,
  unique_from seen (a ++ b) = (unique_from seen a ++ unique_from (a ++ seen) b)%list.
Proof.
  induction a as [|y a IH]; intros b seen; simpl; [reflexivity|].
  destruct (mem y seen) eqn:E.
  - rewrite IH. f_equal. apply unique_from_ext. intros x. simpl. rewrite !in_app_iff. simpl.
    apply mem_true in E. split; [tauto|]. intros [<-|H]; tauto.
  - rewrite IH. simpl. f_equal. f_equal. apply unique_from_ext. intros x.
    simpl. rewrite !in_app_iff. simpl. tauto.
Qed.

(** ** Playlist assembly: properties *)

(** [unique_preserve_order] returns each string of its input once, and
    nothing else; a duplicate-free input is returned unchanged. *)
Theorem unique_preserve_order_spec : forall seq,
  NoDup (unique_preserve_order seq) /\
  (forall x, In x (unique_preserve_order seq) <-> In x seq) /\
  (NoDup seq -> unique_preserve_order seq = seq).
Proof.
  intros seq. unfold unique_preserve_order. split; [apply unique_from_NoDup|split].
  - intros x. rewrite in_unique_from. simpl. tauto.
  - intros H. apply unique_from_id; [exact H|]. intros x _ [].
Qed.

(** [unique_preserve_order] keeps first occurrences: on [a ++ b] it is its
    result on [a] followed by its result on [b] without the strings of [a]. *)
Theorem unique_preserve_order_app : forall a b,
  unique_preserve_order (a ++ b) =
  (unique_preserve_order a ++
   filter (fun x => negb (mem x a)) (unique_preserve_order b))%list.
Proof.
  intros a b. unfold unique_preserve_order. rewrite unique_from_app. f_equal.
  apply (unique_from_app_seen b a []).
Qed.

(** With at least one cue file, [collect_album_tracks] returns the distinct
    cue files in code-point order, and no audio file that is not a cue file. *)
Theorem collect_album_tracks_cue : forall audio_files c cs,
  let r := collect_album_tracks audio_files (c :: cs) in
  Sorted str_le r /\ NoDup r /\ (forall x, In x r <-> In x (c :: cs)).
Proof.
  intros audio_files c cs r. unfold r, collect_album_tracks.
  pose proof (unique_preserve_order_spec (c :: cs)) as [Hn [Hi _]].
  split; [apply sorted_Sorted|split].
  - apply (Permutation_NoDup (Permutation_sym (sorted_perm _))). exact Hn.
  - intros x. rewrite <- Hi. split; apply Permutation_in;
      [apply sorted_perm|apply Permutation_sym, sorted_perm].
Qed.

(** Without cue files, [collect_album_tracks] returns the audio files in
    code-point order, duplicates included. *)
Theorem collect_album_tracks_no_cue : forall audio_files,
  Sorted str_le (collect_album_tracks audio_files []) /\
  Permutation (collect_album_tracks audio_files []) audio_files.
Proof.
  intros audio_files. split; [apply sorted_Sorted|apply sorted_perm].
Qed.

(** The file [make_m3u8] writes reads back, line by line, as the header
    [#EXTM3U] followed by the tracks, when no track contains a line break. *)
Theorem make_m3u8_lines : forall tracks,
  (forall t, In t tracks -> no_line_break t = true) ->
  splitlines (make_m3u8 tracks) = "#EXTM3U" :: tracks.
Proof.
  intros tracks H. unfold splitlines, make_m3u8.
  rewrite splitlines_aux_line by reflexivity.
  rewrite splitlines_lines by exact H. reflexivity.
Qed.

Lemma make_m3u8_lines_witness :
  (forall t, In t ["/music/A/01.flac"; "/music/B/B.cue"] -> no_line_break t = true) /\
  splitlines (make_m3u8 ["/music/A/01.flac"; "/music/B/B.cue"]) =
    ["#EXTM3U"; "/music/A/01.flac"; "/music/B/B.cue"].
Proof.
  assert (H : forall t, In t ["/music/A/01.flac"; "/music/B/B.cue"] -> no_line_break t = true)
    by (intros t [<-|[<-|[]]]; vm_compute; reflexivity).
  split; [exact H|apply (make_m3u8_lines ["/music/A/01.flac"; "/music/B/B.cue"]); exact H].
Defined.

(** The playlist [main] writes lists every collected track exactly once
    after its header, in code-point order under [--sort-tracks] and in order
    of first collection otherwise (tracks without line breaks). *)
Theorem playlist_tracks_once : forall sort_tracks all_tracks,
  (forall t, In t all_tracks -> no_line_break t = true) ->
  let ts := final_tracks sort_tracks all_tracks in
  splitlines (make_m3u8 ts) = "#EXTM3U" :: ts /\ NoDup ts /\
  (forall x, In x ts <-> In x all_tracks) /\
  (if sort_tracks then Sorted str_le ts else ts = unique_preserve_order all_tracks).
Proof.
  intros sort_tracks all_tracks H ts.
  pose proof (unique_preserve_order_spec all_tracks) as [Hn [Hi _]].
  assert (Hts : NoDup ts /\ (forall x, In x ts <-> In x all_tracks) /\
    (if sort_tracks then Sorted str_le ts else ts = unique_preserve_order all_tracks)).
  { unfold ts, final_tracks. destruct sort_tracks.
    - split; [apply (Permutation_NoDup (Permutation_sym (sorted_perm _))); exact Hn|split].
      + intros x. rewrite <- Hi. split; apply Permutation_in;
          [apply sorted_perm|apply Permutation_sym, sorted_perm].
      + apply sorted_Sorted.
    - split; [exact Hn|split; [exact Hi|reflexivity]]. }
  destruct Hts as [H1 [H2 H3]].
  split; [|tauto]. apply make_m3u8_lines. intros t Ht. apply H, H2, Ht.
Qed.

Lemma playlist_tracks_once_witness :
  (forall t, In t ["/m/b.cue"; "/m/a.flac"; "/m/b.cue"] -> no_line_break t = true) /\
  splitlines (make_m3u8 (final_tracks true ["/m/b.cue"; "/m/a.flac"; "/m/b.cue"])) =
    ["#EXTM3U"; "/m/a.flac"; "/m/b.cue"].
Proof.
  assert (H : forall t, In t ["/m/b.cue"; "/m/a.flac"; "/m/b.cue"] -> no_line_break t = true)
    by (intros t [<-|[<-|[<-|[]]]]; vm_compute; reflexivity).
  split; [exact H|].
  destruct (playlist_tracks_once true _ H) as [E _]. rewrite E. vm_compute. reflexivity.
Defined.

(** ** Parsing the album list *)

Lemma key_eqb_true : forall k1 k2, key_eqb k1 k2 = true <-> k1 = k2.
Proof.
  intros [a b] [c d]. unfold key_eqb. simpl. rewrite andb_true_iff, !String.eqb_eq.
  split; [intros [-> ->]; reflexivity|intros H; injection H; auto].
Qed.

Lemma existsb_key_eqb : forall k seen, existsb (key_eqb k) seen = true <-> In k seen.
Proof.
  intros k seen. rewrite existsb_exists. split.
  - intros [k' [H E]]. apply key_eqb_true in E. subst. exact H.
  - intros H. exists k. split; [exact H|apply key_eqb_true; reflexivity].
Qed.

Lemma unique_entries_in : forall es seen e, In e (unique_entries seen es) -> In e es.
Proof.
  induction es as [|x es IH]; intros seen e; simpl; [tauto|].
  destruct (existsb (key_eqb (entry_key x)) seen).
  - intros H. right. exact (IH _ _ H).
  - intros [->|H]; [left; reflexivity|right; exact (IH _ _ H)].
Qed.

Lemma unique_entries_keys : forall es seen,
  NoDup (map entry_key (unique_entries seen es)) /\
  (forall e, In e (unique_entries seen es) -> ~ In (entry_key e) seen).
Proof.
  induction es as [|x es IH]; intros seen; simpl; [split; [constructor|tauto]|].
  destruct (existsb (key_eqb (entry_key x)) seen) eqn:E; [apply IH|].
  destruct (IH (entry_key x :: seen)) as [H1 H2]. split.
  - simpl. constructor; [|exact H1].
    intros Hin. apply in_map_iff in Hin as [e [Hk He]].
    apply (H2 e He). rewrite Hk. left. reflexivity.
  - intros e [<-|He].
    + intros Hin. apply existsb_key_eqb in Hin. congruence.
    + intros Hin. apply (H2 e He). right. exact Hin.
Qed.

Lemma unique_entries_id : forall es seen,
  NoDup (map entry_key es) -> (forall e, In e es -> ~ In (entry_key e) seen) ->
  unique_entries seen es = es.
Proof.
  induction es as [|x es IH]; intros seen Hn Hs; simpl; [reflexivity|].
  inversion Hn as [|? ? Hx Hn']; subst.
  destruct (existsb (key_eqb (entry_key x)) seen) eqn:E.
  - apply existsb_key_eqb in E. exfalso. exact (Hs x (or_introl eq_refl) E).
  - f_equal. apply IH; [exact Hn'|].
    intros e He [Hk|Hk].
    + apply Hx. rewrite Hk. apply in_map. exact He.
    + exact (Hs e (or_intror He) Hk).
Qed.

Lemma in_flat_map_option : forall (f : string -> option Dedupe.entry) l e,
  In e (flat_map (fun raw => option_list (f raw)) l) <-> exists raw, In raw l /\ f raw = Some e.
Proof.
  intros f l e. rewrite in_flat_map. split.
  - intros [raw [H1 H2]]. exists raw. split; [exact H1|].
    destruct (f raw); simpl in H2; [destruct H2 as [->|[]]; reflexivity|contradiction].
  - intros [raw [H1 H2]]. exists raw. split; [exact H1|]. rewrite H2. left. reflexivity.
Qed.

(** *** Whitespace *)

Lemma rstrip_all_space : forall s, sforall is_space s = true -> rstrip s = EmptyString.
Proof.
  induction s as [|c r IH]; simpl; [reflexivity|].
  intros H. apply andb_prop in H as [Hc Hr]. rewrite Hc, IH by exact Hr. reflexivity.
Qed.

Lemma rstrip_empty : forall s, rstrip s = EmptyString -> sforall is_space s = true.
Proof.
  induction s as [|c r IH]; simpl; [reflexivity|].
  destruct (is_space c && String.eqb (rstrip r) EmptyString) eqn:E; [|discriminate].
  intros _. apply andb_prop in E as [Hc Hr]. apply String.eqb_eq in Hr.
  rewrite Hc. apply IH. exact Hr.
Qed.

Lemma lstrip_empty : forall s, lstrip s = EmptyString -> sforall is_space s = true.
Proof.
  induction s as [|c r IH]; simpl; [reflexivity|].
  destruct (is_space c) eqn:E; [exact IH|discriminate].
Qed.

Lemma strip_empty : forall s, strip s = EmptyString -> sforall is_space s = true.
Proof.
  intros s H. unfold strip in H. apply rstrip_empty in H.
  pose proof (lstrip_head s) as Hh. destruct (lstrip s) as [|c r] eqn:E.
  - apply lstrip_empty. exact E.
  - simpl in H, Hh. rewrite Hh in H. discriminate.
Qed.

Lemma strip_head : forall s, head_not_space (strip s).
Proof. intros s. apply head_not_space_rstrip, lstrip_head. Qed.

Lemma strip_idem : forall s, strip (strip s) = strip s.
Proof.
  intros s. unfold strip at 1. rewrite lstrip_head_id by apply strip_head.
  unfold strip. apply rstrip_idem.
Qed.

Lemma strip_fixed : forall s, strip s = s -> lstrip s = s /\ rstrip s = s.
Proof.
  intros s H. assert (Hl : lstrip s = s).
  { apply lstrip_head_id. rewrite <- H. apply strip_head. }
  split; [exact Hl|]. unfold strip in H. rewrite Hl in H. exact H.
Qed.

Lemma rstrip_app_r : forall x z, sforall is_space z = false -> rstrip (x ++ z) = x ++ rstrip z.
Proof.
  induction x as [|c x IH]; intros z H; simpl; [reflexivity|].
  rewrite IH by exact H.
  destruct (String.eqb (x ++ rstrip z) EmptyString) eqn:E.
  - apply String.eqb_eq in E. destruct x; [|discriminate].
    simpl in E. apply rstrip_empty in E. congruence.
  - rewrite andb_false_r. reflexivity.
Qed.

Lemma rstrip_app_space : forall x z, sforall is_space z = true -> rstrip (x ++ z) = rstrip x.
Proof.
  induction x as [|c x IH]; intros z H; simpl; [apply rstrip_all_space; exact H|].
  rewrite IH by exact H. reflexivity.
Qed.

Lemma append_inj_l : forall x a b, x ++ a = x ++ b -> a = b.
Proof.
  induction x as [|c x IH]; intros a b H; simpl in H; [exact H|].
  injection H. apply IH.
Qed.

Lemma head_not_space_nonempty : forall s, head_not_space s -> s <> EmptyString ->
  sforall is_space s = false.
Proof.
  intros [|c r] H1 H2; [congruence|]. simpl in *. rewrite H1. reflexivity.
Qed.

(** *** The year suffix, the separator and the numbering *)

Lemma year_suffix_at_shape : forall s y, year_suffix_at s = Some y ->
  exists a b c d rest, s = String "(" (String a (String b (String c (String d (String ")" rest)))))
    /\ is_digit a = true /\ is_digit b = true /\ is_digit c = true /\ is_digit d = true
    /\ sforall is_space rest = true /\ y = String a (String b (String c (String d EmptyString))).
Proof.
  intros s y H.
  destruct s as [|o [|a [|b [|c [|d [|p rest]]]]]]; simpl in H; try discriminate.
  destruct (Ascii.eqb o "(" && is_digit a && is_digit b && is_digit c && is_digit d
            && Ascii.eqb p ")" && sforall is_space rest) eqn:E; [|discriminate].
  injection H as <-.
  repeat match type of E with (_ && _) = true => apply andb_prop in E as [E ?] end.
  apply Ascii.eqb_eq in E. subst o.
  match goal with Hp : Ascii.eqb p ")" = true |- _ => apply Ascii.eqb_eq in Hp; subst p end.
  exists a, b, c, d, rest. repeat split; assumption.
Qed.

Lemma four_digits_year : forall s y, year_suffix_at s = Some y -> four_digits y.
Proof.
  intros s y H. apply year_suffix_at_shape in H as (a & b & c & d & rest & _ & Ha & Hb & Hc & Hd & _ & ->).
  exists a, b, c, d. repeat split; assumption.
Qed.

Lemma search_year_suffix_cons : forall c r,
  search_year_suffix (String c r) =
  match year_suffix_at (String c r) with
  | Some y => Some (EmptyString, y)
  | None => match search_year_suffix r with Some (p, y) => Some (String c p, y) | None => None end
  end.
Proof. reflexivity. Qed.

Lemma search_year_suffix_some : forall s p y, search_year_suffix s = Some (p, y) ->
  four_digits y /\ exists q, s = p ++ q.
Proof.
  induction s as [|c r IH]; intros p y H.
  - discriminate.
  - rewrite search_year_suffix_cons in H. destruct (year_suffix_at (String c r)) as [y'|] eqn:E.
    + injection H as <- <-. split; [exact (four_digits_year _ _ E)|].
      exists (String c r). reflexivity.
    + destruct (search_year_suffix r) as [[p' y']|] eqn:E'; [|discriminate].
      injection H as <- <-. destruct (IH p' y' eq_refl) as [Hy [q ->]].
      split; [exact Hy|]. exists q. reflexivity.
Qed.

Lemma year_suffix_at_head : forall c r y, year_suffix_at (String c r) = Some y -> c = "("%char.
Proof.
  intros c r y H. apply year_suffix_at_shape in H as (a & b & cc & d & rest & E & _).
  injection E. auto.
Qed.

Lemma search_year_suffix_skip : forall c r, c <> "("%char ->
  search_year_suffix (String c r) =
  match search_year_suffix r with Some (p, y) => Some (String c p, y) | None => None end.
Proof.
  intros c r Hc. rewrite search_year_suffix_cons.
  destruct (year_suffix_at (String c r)) eqn:E; [|reflexivity].
  apply year_suffix_at_head in E. contradiction.
Qed.

Lemma rsplit_once_app : forall sep x z a b, rsplit_once sep z = Some (a, b) ->
  rsplit_once sep (x ++ z) = Some (x ++ a, b).
Proof.
  induction x as [|c x IH]; intros z a b H; simpl; [exact H|].
  rewrite (IH z a b H). reflexivity.
Qed.

Lemma rsplit_once_none : forall sep s, is_substring sep s = false -> rsplit_once sep s = None.
Proof.
  induction s as [|c r IH]; intros H; simpl; [reflexivity|].
  simpl in H. destruct (drop_prefix sep (String c r)) eqn:E; [discriminate|].
  rewrite IH by exact H. reflexivity.
Qed.

Lemma rsplit_once_some : forall sep s a b, rsplit_once sep s = Some (a, b) -> s = a ++ sep ++ b.
Proof.
  induction s as [|c r IH]; intros a b H; simpl in H; [discriminate|].
  destruct (rsplit_once sep r) as [[a' b']|] eqn:E.
  - injection H as <- <-. rewrite (IH a' b' eq_refl). reflexivity.
  - destruct (drop_prefix sep (String c r)) eqn:D; [|discriminate].
    injection H as <- <-. apply drop_prefix_app in D. exact D.
Qed.

Lemma drop_prefix_self : forall w r, drop_prefix w (w ++ r) = Some r.
Proof.
  induction w as [|a w IH]; intros r; simpl; [reflexivity|].
  rewrite Ascii.eqb_refl. apply IH.
Qed.

Lemma skip_digits_app : forall a b,
  skip_digits (a ++ b) =
  match skip_digits a with EmptyString => skip_digits b | s => s ++ b end.
Proof.
  induction a as [|c a IH]; intros b; simpl; [reflexivity|].
  destruct (is_digit c); [apply IH|reflexivity].
Qed.

Lemma skip_digits_suffix : forall s, is_suffix (skip_digits s) s.
Proof.
  induction s as [|c r IH]; simpl; [apply is_suffix_refl|].
  destruct (is_digit c); [|apply is_suffix_refl].
  destruct IH as [q E]. exists (String c q). simpl. rewrite <- E. reflexivity.
Qed.

Lemma string_length_app : forall a b, String.length (a ++ b) = String.length a + String.length b.
Proof. induction a as [|c a IH]; intros b; simpl; [reflexivity|]. rewrite IH. reflexivity. Qed.

Lemma lstrip_length : forall s, String.length (lstrip s) <= String.length s.
Proof.
  induction s as [|c r IH]; simpl; [lia|]. destruct (is_space c); simpl; lia.
Qed.

Lemma strip_numbering_cons : forall c x,
  strip_numbering (String c x) =
  if is_digit c then
    match skip_digits (String c x) with
    | String p r => if Ascii.eqb p ")" || Ascii.eqb p "." then lstrip r else String c x
    | EmptyString => String c x
    end
  else String c x.
Proof. reflexivity. Qed.

Lemma strip_numbering_space : forall a r,
  a <> EmptyString -> strip_numbering a = a ->
  strip_numbering (a ++ String " " r) = a ++ String " " r.
Proof.
  intros [|c a'] r Hne H; [congruence|].
  change (String c a' ++ String " " r) with (String c (a' ++ String " " r)).
  rewrite strip_numbering_cons in *.
  destruct (is_digit c) eqn:Hd; [|reflexivity].
  change (String c (a' ++ String " " r)) with (String c a' ++ String " " r).
  rewrite skip_digits_app.
  destruct (skip_digits (String c a')) as [|p r'] eqn:E.
  - simpl. reflexivity.
  - destruct (Ascii.eqb p ")" || Ascii.eqb p ".") eqn:Ep; [|simpl; rewrite Ep; reflexivity].
    exfalso. destruct (skip_digits_suffix (String c a')) as [q Eq].
    rewrite E in Eq. rewrite <- H in Eq.
    assert (L := f_equal String.length Eq). rewrite string_length_app in L.
    simpl in L. pose proof (lstrip_length r'). lia.
Qed.

Lemma resolve_self_titled_cases : forall album artist,
  resolve_self_titled album artist = album \/ resolve_self_titled album artist = strip artist.
Proof.
  intros album artist. unfold resolve_self_titled.
  destruct (is_self_titled_token (lower (strip album))); auto.
Qed.

Lemma parse_text_line_ok : forall raw e, parse_text_line raw = Some e ->
  entry_ok e /\ match Dedupe.year e with None => True | Some y => four_digits y end.
Proof.
  intros raw e H. unfold parse_text_line in H.
  destruct (strip raw) as [|c r]; [discriminate|].
  destruct (Ascii.eqb c "#"); [discriminate|].
  destruct (search_year_suffix (strip_numbering (String c r))) as [[p y]|] eqn:Ey;
    cbn beta iota zeta in H;
    (destruct (rsplit_once " - " _) as [[ap alb]|]; [|discriminate]);
    (destruct (negb (String.eqb (strip ap) EmptyString) &&
               negb (String.eqb (resolve_self_titled (strip alb) (strip ap)) EmptyString)) eqn:En;
       [|discriminate]);
    injection H as <-; apply andb_prop in En as [E1 E2];
    apply negb_true_iff, String.eqb_neq in E1; apply negb_true_iff, String.eqb_neq in E2;
    (split; [unfold entry_ok; simpl; split; [exact E1|split; [exact E2|split; [apply strip_idem|]]]|]).
  - destruct (resolve_self_titled_cases (strip alb) (strip ap)) as [->| ->]; apply strip_idem.
  - simpl. apply search_year_suffix_some in Ey. apply Ey.
  - destruct (resolve_self_titled_cases (strip alb) (strip ap)) as [->| ->]; apply strip_idem.
  - simpl. exact I.
Qed.

(** Every entry [parse_album_list_from_text] returns has a non-empty,
    trimmed artist and album, and a year that is absent or four digits; no
    two entries share the key (normalised artist, normalised album). *)
Theorem parse_album_list_from_text_ok : forall text,
  (forall e, In e (parse_album_list_from_text text) ->
     entry_ok e /\ match Dedupe.year e with None => True | Some y => four_digits y end) /\
  NoDup (map entry_key (parse_album_list_from_text text)).
Proof.
  intros text. unfold parse_album_list_from_text. split.
  - intros e He. apply unique_entries_in, in_flat_map_option in He as [raw [_ H]].
    exact (parse_text_line_ok raw e H).
  - apply unique_entries_keys.
Qed.

Lemma parse_html_line_ok : forall raw e, parse_html_line raw = Some e ->
  entry_ok e /\ exists y, Dedupe.year e = Some y /\ four_digits y.
Proof.
  intros raw e H. unfold parse_html_line in H.
  destruct (is_noise raw); [discriminate|].
  destruct (search_year_suffix (strip raw)) as [[p y]|] eqn:Ey; [|discriminate].
  cbn beta iota zeta in H.
  destruct (rsplit_once " - " (rstrip p)) as [[ap alb]|] eqn:Er; [|discriminate].
  injection H as <-.
  apply search_year_suffix_some in Ey as [Hy [q Eq]].
  apply rsplit_once_some in Er.
  assert (Hp : head_not_space p).
  { pose proof (strip_head raw) as Hh. rewrite Eq in Hh. destruct p; [exact I|exact Hh]. }
  pose proof (head_not_space_rstrip p Hp) as Hrp. rewrite Er in Hrp.
  destruct ap as [|a ap']; [simpl in Hrp; discriminate|]. simpl in Hrp.
  assert (Ha : strip (String a ap') <> EmptyString).
  { intros E. apply strip_empty in E. simpl in E. rewrite Hrp in E. discriminate. }
  assert (Halb : sforall is_space alb = false).
  { destruct (sforall is_space alb) eqn:Ea; [exfalso|reflexivity].
    pose proof (rstrip_idem p) as Hi. rewrite Er in Hi.
    replace (String a ap' ++ " - " ++ alb) with ((String a ap' ++ " -") ++ String " " alb) in Hi
      by (rewrite string_app_assoc; reflexivity).
    rewrite rstrip_app_space in Hi by (simpl; exact Ea).
    rewrite rstrip_app_r in Hi by reflexivity.
    rewrite string_app_assoc in Hi. apply append_inj_l in Hi. discriminate. }
  assert (Hb : strip alb <> EmptyString).
  { intros E. apply strip_empty in E. congruence. }
  split; [|exists y; split; [reflexivity|exact Hy]].
  unfold entry_ok. simpl. split; [exact Ha|split; [|split; [apply strip_idem|]]].
  - destruct (resolve_self_titled_cases (strip alb) (strip (String a ap'))) as [->| ->];
      [exact Hb|rewrite strip_idem; exact Ha].
  - destruct (resolve_self_titled_cases (strip alb) (strip (String a ap'))) as [->| ->];
      apply strip_idem.
Qed.

(** Every entry [parse_album_list_from_html] returns has a four-digit year
    and a non-empty, trimmed artist and album, although the loop checks
    neither field for emptiness; no two entries share a key. *)
Theorem parse_album_list_from_html_ok : forall combined,
  (forall e, In e (parse_album_list_from_html_text combined) ->
     entry_ok e /\ exists y, Dedupe.year e = Some y /\ four_digits y) /\
  NoDup (map entry_key (parse_album_list_from_html_text combined)).
Proof.
  intros combined. unfold parse_album_list_from_html_text. split.
  - intros e He. apply unique_entries_in, in_flat_map_option in He as [raw [_ H]].
    exact (parse_html_line_ok raw e H).
  - apply unique_entries_keys.
Qed.

(** *** The round trip through [--write-list] *)

Lemma concat_newline : forall ls, ls <> [] ->
  String.concat newline ls ++ newline =
  String.concat EmptyString (map (fun t => t ++ newline) ls).
Proof.
  induction ls as [|x [|y l] IH]; intros H; [congruence|reflexivity|].
  change (String.concat newline (x :: y :: l)) with (x ++ newline ++ String.concat newline (y :: l)).
  rewrite map_cons, concat_empty_cons, !string_app_assoc, IH by discriminate. reflexivity.
Qed.

Lemma digit_no_break : forall c, is_digit c = true -> is_line_break c = false.
Proof. char_cases. Qed.

Lemma no_line_break_app : forall a b,
  no_line_break (a ++ b) = no_line_break a && no_line_break b.
Proof. intros a b. apply sforall_app. Qed.

Lemma year_suffix_at_tail_none : forall c x y, four_digits y ->
  year_suffix_at (String c (x ++ String " " (String "(" (y ++ String ")" EmptyString)))) = None.
Proof.
  intros c x y (d1 & d2 & d3 & d4 & H1 & H2 & H3 & H4 & ->).
  destruct (year_suffix_at _) eqn:E; [exfalso|reflexivity].
  apply year_suffix_at_shape in E as (a & b & cc & d & rest & Es & Ha & Hb & Hc & Hd & Hr & _).
  injection Es as _ Es.
  destruct x as [|x1 [|x2 [|x3 [|x4 [|x5 x']]]]]; simpl in Es; injection Es; intros; subst;
    try discriminate.
  rewrite sforall_app in Hr. simpl in Hr. rewrite andb_false_r in Hr. discriminate.
Qed.

Lemma search_year_suffix_tail : forall y x, four_digits y ->
  search_year_suffix (x ++ String " " (String "(" (y ++ String ")" EmptyString))) =
  Some (x ++ String " " EmptyString, y).
Proof.
  intros y x Hy. induction x as [|c x IH].
  - cbn [append]. rewrite search_year_suffix_skip by discriminate.
    rewrite search_year_suffix_cons.
    destruct Hy as (d1 & d2 & d3 & d4 & H1 & H2 & H3 & H4 & ->).
    unfold year_suffix_at. cbn [append]. rewrite H1, H2, H3, H4. reflexivity.
  - cbn [append]. rewrite search_year_suffix_cons, year_suffix_at_tail_none by exact Hy.
    rewrite IH. reflexivity.
Qed.

Lemma year_suffix_at_dash : forall s y, year_suffix_at s = Some y -> in_chars "-" s = false.
Proof.
  intros s y E.
  apply year_suffix_at_shape in E as (a & b & c & d & rest & -> & Ha & Hb & Hc & Hd & Hr & _).
  assert (Nd : forall x, is_digit x = true -> Ascii.eqb "-" x = false).
  { intros x Hx. destruct (Ascii.eqb_spec "-" x) as [<-|]; [discriminate|reflexivity]. }
  assert (Nr : forall r, sforall is_space r = true -> in_chars "-" r = false).
  { induction r as [|x r IH]; intros Hx; [reflexivity|]. cbn [in_chars sforall] in *.
    apply andb_prop in Hx as [Hx Hr']. rewrite IH by exact Hr'.
    destruct (Ascii.eqb_spec "-" x) as [<-|]; [discriminate|reflexivity]. }
  cbn [in_chars]. rewrite (Nd a), (Nd b), (Nd c), (Nd d), (Nr rest) by assumption. reflexivity.
Qed.

Lemma in_chars_app : forall c a b, in_chars c (a ++ b) = in_chars c a || in_chars c b.
Proof.
  induction a as [|x a IH]; intros b; simpl; [reflexivity|]. rewrite IH. apply orb_assoc.
Qed.

Lemma search_year_suffix_app_dash : forall x z, in_chars "-" z = true ->
  search_year_suffix (x ++ z) =
  match search_year_suffix z with Some (p, y) => Some (x ++ p, y) | None => None end.
Proof.
  induction x as [|c x IH]; intros z Hz.
  - simpl. destruct (search_year_suffix z) as [[p y]|]; reflexivity.
  - cbn [append]. rewrite search_year_suffix_cons.
    destruct (year_suffix_at (String c (x ++ z))) eqn:E.
    + apply year_suffix_at_dash in E. cbn [in_chars] in E. rewrite in_chars_app, Hz, !orb_true_r in E.
      discriminate.
    + rewrite IH by exact Hz. destruct (search_year_suffix z) as [[p y]|]; reflexivity.
Qed.

Lemma search_year_suffix_sep : forall a b,
  search_year_suffix (a ++ " - " ++ b) =
  match search_year_suffix b with Some (p, y) => Some (a ++ " - " ++ p, y) | None => None end.
Proof.
  intros a b. rewrite search_year_suffix_app_dash by reflexivity.
  change (" - " ++ b) with (String " " (String "-" (String " " b))).
  rewrite !search_year_suffix_skip by discriminate.
  destruct (search_year_suffix b) as [[p y]|]; reflexivity.
Qed.

Lemma rsplit_once_cons : forall sep c r,
  rsplit_once sep (String c r) =
  match rsplit_once sep r with
  | Some (a, b) => Some (String c a, b)
  | None => match drop_prefix sep (String c r) with Some rest => Some (EmptyString, rest) | None => None end
  end.
Proof. reflexivity. Qed.

Lemma rsplit_once_sep : forall a b, is_substring " - " (String " " b) = false ->
  rsplit_once " - " (a ++ " - " ++ b) = Some (a, b).
Proof.
  intros a b H. rewrite <- (append_empty_r a) at 2. apply rsplit_once_app.
  change (" - " ++ b) with (String " " (String "-" (String " " b))).
  rewrite rsplit_once_cons, rsplit_once_cons, (rsplit_once_none _ _ H).
  reflexivity.
Qed.

Lemma rstrip_last : forall x c, is_space c = false ->
  rstrip (x ++ String c EmptyString) = x ++ String c EmptyString.
Proof.
  intros x c Hc. rewrite rstrip_app_r by (simpl; rewrite Hc; reflexivity).
  simpl. rewrite Hc. reflexivity.
Qed.

Lemma entry_line_cases : forall e,
  entry_line e =
  match Dedupe.year e with
  | Some y => if String.eqb y EmptyString then Dedupe.artist e ++ " - " ++ Dedupe.album e
              else Dedupe.artist e ++ " - " ++ Dedupe.album e ++ " (" ++ y ++ ")"
  | None => Dedupe.artist e ++ " - " ++ Dedupe.album e
  end.
Proof.
  intros [a b [y|]]; unfold entry_line, Dedupe.has_year; simpl;
    [destruct (String.eqb y EmptyString); simpl|]; rewrite ?append_empty_r; reflexivity.
Qed.

Lemma entry_line_no_break : forall e, list_line_ok e -> no_line_break (entry_line e) = true.
Proof.
  intros e (_ & _ & Ha & _ & _ & _ & _ & Hb & _ & _ & Hy).
  rewrite entry_line_cases. destruct (Dedupe.year e) as [y|].
  - destruct Hy as (d1 & d2 & d3 & d4 & H1 & H2 & H3 & H4 & ->). simpl String.eqb. cbv iota.
    rewrite !no_line_break_app, Ha, Hb. unfold no_line_break. cbn [sforall append].
    rewrite (digit_no_break d1), (digit_no_break d2), (digit_no_break d3), (digit_no_break d4)
      by assumption. reflexivity.
  - rewrite !no_line_break_app, Ha, Hb. reflexivity.
Qed.

Lemma parse_text_line_entry_line : forall e, list_line_ok e -> parse_text_line (entry_line e) = Some e.
Proof.
  intros e Hok. pose proof Hok as (Ha0 & Ha1 & _ & Ha3 & Ha4 & Hb0 & Hb1 & _ & Hb3 & Hb4 & Hy).
  destruct e as [A B Y]; simpl in *.
  apply strip_fixed in Ha1 as [AL AR]. apply strip_fixed in Hb1 as [BL BR].
  assert (HA : head_not_space A) by (rewrite <- AL; apply lstrip_head).
  assert (HB : head_not_space B) by (rewrite <- BL; apply lstrip_head).
  assert (SB : sforall is_space B = false) by (apply head_not_space_nonempty; assumption).
  destruct A as [|a A']; [congruence|]. simpl in HA.
  assert (Hh : Ascii.eqb a "#" = false).
  { destruct (Ascii.eqb_spec a "#") as [->|]; [|reflexivity]. simpl in Ha3. congruence. }
  set (A := String a A') in *.
  (* the line without its year, and the fields read back from it *)
  assert (Hbase : rstrip (A ++ " - " ++ B) = A ++ " - " ++ B).
  { rewrite rstrip_app_r by reflexivity. f_equal.
    change (" - " ++ B) with (" - " ++ B). rewrite rstrip_app_r by exact SB. rewrite BR. reflexivity. }
  assert (Hsplit : rsplit_once " - " (A ++ " - " ++ B) = Some (A, B))
    by (apply rsplit_once_sep; exact Hb3).
  assert (HsA : strip A = A) by (unfold strip; rewrite AL, AR; reflexivity).
  assert (HsB : strip B = B) by (unfold strip; rewrite BL, BR; reflexivity).
  assert (Hres : resolve_self_titled (strip B) (strip A) = B).
  { rewrite HsB. unfold resolve_self_titled. rewrite HsB. cbv zeta. rewrite Hb4. reflexivity. }
  assert (Hnum : forall r, strip_numbering (A ++ String " " r) = A ++ String " " r)
    by (intros r; apply strip_numbering_space; [discriminate|exact Ha4]).
  assert (Hfields : forall year,
    (if negb (String.eqb (strip A) EmptyString) &&
        negb (String.eqb (resolve_self_titled (strip B) (strip A)) EmptyString)
     then Some (Dedupe.mkEntry (strip A) (resolve_self_titled (strip B) (strip A)) year)
     else None) = Some (Dedupe.mkEntry A B year)).
  { intros year. rewrite Hres, HsA.
    destruct (String.eqb_spec A EmptyString); [discriminate|].
    destruct (String.eqb_spec B EmptyString); [contradiction|]. reflexivity. }
  rewrite entry_line_cases. simpl Dedupe.artist; simpl Dedupe.album; simpl Dedupe.year.
  destruct Y as [y|].
  - assert (Hne : String.eqb y EmptyString = false)
      by (destruct Hy as (d1 & d2 & d3 & d4 & _ & _ & _ & _ & ->); reflexivity).
    rewrite Hne.
    set (L := A ++ " - " ++ B ++ " (" ++ y ++ ")").
    assert (HLs : strip L = L).
    { unfold strip. rewrite lstrip_head_id by exact HA.
      unfold L. replace (A ++ " - " ++ B ++ " (" ++ y ++ ")")
        with ((A ++ " - " ++ B ++ String " " (String "(" y)) ++ String ")" EmptyString)
        by (rewrite !string_app_assoc; reflexivity).
      apply rstrip_last. reflexivity. }
    unfold parse_text_line. rewrite HLs.
    change L with (String a (A' ++ " - " ++ B ++ " (" ++ y ++ ")")). cbv iota. rewrite Hh.
    change (String a (A' ++ " - " ++ B ++ " (" ++ y ++ ")")) with (A ++ String " " ("- " ++ B ++ " (" ++ y ++ ")")).
    rewrite Hnum. change (A ++ String " " ("- " ++ B ++ " (" ++ y ++ ")")) with (A ++ " - " ++ B ++ " (" ++ y ++ ")").
    rewrite search_year_suffix_sep.
    change (" (" ++ y ++ ")") with (String " " (String "(" (y ++ String ")" EmptyString))).
    rewrite search_year_suffix_tail by exact Hy. cbn beta iota zeta.
    replace (A ++ " - " ++ B ++ String " " EmptyString) with ((A ++ " - " ++ B) ++ String " " EmptyString)
      by (rewrite !string_app_assoc; reflexivity).
    rewrite rstrip_app_space by reflexivity. rewrite Hbase, Hsplit. cbv iota beta zeta.
    apply Hfields.
  - assert (HLs : strip (A ++ " - " ++ B) = A ++ " - " ++ B).
    { unfold strip. rewrite lstrip_head_id by exact HA. exact Hbase. }
    unfold parse_text_line. rewrite HLs.
    change (A ++ " - " ++ B) with (String a (A' ++ " - " ++ B)). cbv iota. rewrite Hh.
    change (String a (A' ++ " - " ++ B)) with (A ++ String " " ("- " ++ B)).
    rewrite Hnum. change (A ++ String " " ("- " ++ B)) with (A ++ " - " ++ B).
    rewrite search_year_suffix_sep, Hy. cbn beta iota zeta.
    rewrite Hsplit. cbv iota beta zeta. apply Hfields.
Qed.

(** A list written by [--write-list] is read back by
    [parse_album_list_from_text] as the same entries, in the same order,
    when each entry satisfies [list_line_ok] and no two entries share a key. *)
Theorem write_list_round_trip : forall entries,
  (forall e, In e entries -> list_line_ok e) ->
  NoDup (map entry_key entries) ->
  parse_album_list_from_text (write_list_text entries) = entries.
Proof.
  intros entries Hok Hn. unfold parse_album_list_from_text, write_list_text.
  destruct entries as [|e0 es0] eqn:Ee; [reflexivity|]. rewrite <- Ee in *.
  rewrite concat_newline by (rewrite Ee; simpl; discriminate).
  rewrite splitlines_lines.
  2: { intros t Ht. apply in_map_iff in Ht as [e [<- He]]. apply entry_line_no_break, Hok, He. }
  assert (Hf : flat_map (fun raw => option_list (parse_text_line raw)) (map entry_line entries) = entries).
  { clear Hn Ee. induction entries as [|e es IH]; [reflexivity|].
    simpl. rewrite parse_text_line_entry_line by (apply Hok; left; reflexivity).
    simpl. f_equal. apply IH. intros x Hx. apply Hok. right. exact Hx. }
  rewrite Hf. apply unique_entries_id; [exact Hn|]. intros e _ [].
Qed.

Lemma write_list_round_trip_witness :
  let es := [Dedupe.mkEntry "Jade Warrior" "Floating World" (Some "1974");
             Dedupe.mkEntry "Jean Cohen - Solal" "Captain Tarthopom" (Some "1973");
             Dedupe.mkEntry "Gracious!" "Echo" None] in
  (forall e, In e es -> list_line_ok e) /\ NoDup (map entry_key es) /\
  parse_album_list_from_text (write_list_text es) = es.
Proof.
  intros es.
  assert (H1 : forall e, In e es -> list_line_ok e).
  { intros e [<-|[<-|[<-|[]]]]; unfold list_line_ok; simpl;
      (repeat split); try discriminate; try (vm_compute; reflexivity);
      try (exists "1"%char, "9"%char, "7"%char; eexists; repeat split; reflexivity). }
  assert (H2 : NoDup (map entry_key es)).
  { vm_compute. repeat (constructor; [simpl; intuition discriminate|]). constructor. }
  split; [exact H1|split; [exact H2|]]. apply write_list_round_trip; assumption.
Defined.

(** ** Cue sheets: properties *)

Lemma span_spec : forall p s a b, span p s = (a, b) -> sforall p a = true /\ s = a ++ b.
Proof.
  intros p. induction s as [|c r IH]; intros a b H; simpl in H.
  - injection H as <- <-. split; reflexivity.
  - destruct (p c) eqn:Hc.
    + destruct (span p r) as [a' b'] eqn:E. injection H as <- <-.
      destruct (IH a' b' eq_refl) as [H1 ->]. simpl. rewrite Hc, H1. split; reflexivity.
    + injection H as <- <-. split; reflexivity.
Qed.

Lemma span_app_stop : forall p x c r, sforall p x = true -> p c = false ->
  span p (x ++ String c r) = (x, String c r).
Proof.
  intros p. induction x as [|d x IH]; intros c r Hx Hc; simpl.
  - rewrite Hc. reflexivity.
  - simpl in Hx. apply andb_prop in Hx as [Hd Hx]. rewrite Hd, IH by assumption. reflexivity.
Qed.

Lemma span_all : forall p s, sforall p s = true -> span p s = (s, EmptyString).
Proof.
  intros p. induction s as [|c r IH]; intros H; simpl; [reflexivity|].
  simpl in H. apply andb_prop in H as [Hc Hr]. rewrite Hc, IH by exact Hr. reflexivity.
Qed.

Lemma span_length : forall p s a b, span p s = (a, b) -> String.length b <= String.length s.
Proof.
  intros p s a b H. apply span_spec in H as [_ ->]. rewrite string_length_app. lia.
Qed.

Lemma plus_run_length : forall p s r, plus_run p s = Some r -> String.length r < String.length s.
Proof.
  intros p s r H. unfold plus_run in H. destruct (span p s) as [a b] eqn:E.
  apply span_spec in E as [_ ->]. destruct a as [|c a]; [discriminate|].
  injection H as <-. simpl. rewrite string_length_app. lia.
Qed.

Lemma ci_prefix_length : forall w s r, ci_prefix w s = Some r ->
  String.length r + String.length w = String.length s.
Proof.
  induction w as [|a w IH]; intros s r H; simpl in H.
  - injection H as <-. simpl. lia.
  - destruct s as [|b s]; [discriminate|].
    destruct (Ascii.eqb (to_lower b) a); [|discriminate].
    simpl. rewrite <- (IH s r H). lia.
Qed.

Lemma ci_prefix_lower : forall k r, ci_prefix (lower k) (k ++ r) = Some r.
Proof.
  induction k as [|c k IH]; intros r; simpl; [reflexivity|].
  rewrite Ascii.eqb_refl. apply IH.
Qed.

Lemma cue_file_at_shorter : forall s name rest, cue_file_at s = Some (name, rest) ->
  String.length rest < String.length s /\ name <> EmptyString /\
  sforall (fun c => negb (Ascii.eqb c dquote)) name = true.
Proof.
  intros s name rest H. unfold cue_file_at in H.
  destruct (ci_prefix "file" s) as [r1|] eqn:E1; [|discriminate].
  destruct (plus_run is_space r1) as [[|q r2]|] eqn:E2; try discriminate.
  destruct (Ascii.eqb q dquote); [|discriminate].
  destruct (span (fun c => negb (Ascii.eqb c dquote)) r2) as [[|n0 n] [|q' r3]] eqn:E3;
    try discriminate.
  destruct (plus_run is_space r3) as [r4|] eqn:E4; [|discriminate].
  destruct (span is_word_char r4) as [[|w0 w] rest'] eqn:E5; [discriminate|].
  injection H as <- <-.
  apply ci_prefix_length in E1. apply plus_run_length in E2.
  apply span_spec in E3 as [Hn E3]. apply plus_run_length in E4. apply span_length in E5.
  rewrite E3 in E2. simpl in E2. rewrite string_length_app in E2. simpl in E1, E2.
  split; [lia|split; [discriminate|exact Hn]].
Qed.

Lemma cue_refs_aux_fuel : forall n m s, String.length s < n -> String.length s < m ->
  cue_refs_aux n s = cue_refs_aux m s.
Proof.
  induction n as [|n IH]; intros m s Hn Hm; [lia|]. destruct m as [|m]; [lia|].
  simpl. destruct (cue_file_at s) as [[name rest]|] eqn:E.
  - apply cue_file_at_shorter in E as [L _]. f_equal. apply IH; lia.
  - destruct s as [|c r]; [reflexivity|]. simpl in Hn, Hm. apply IH; lia.
Qed.

Lemma sforall_not_in : forall c s,
  sforall (fun d => negb (Ascii.eqb d c)) s = true <-> in_chars c s = false.
Proof.
  intros c. induction s as [|d r IH]; simpl; [tauto|].
  rewrite andb_true_iff, orb_false_iff, IH, negb_true_iff.
  destruct (Ascii.eqb_spec d c), (Ascii.eqb_spec c d); subst; tauto.
Qed.

(** The names the FILE pattern captures are non-empty and contain no
    double quote. *)
Lemma cue_refs_names : forall content,
  Forall (fun name => name <> EmptyString /\ in_chars dquote name = false) (cue_refs content).
Proof.
  intros content. unfold cue_refs. generalize (S (String.length content)) as n.
  intros n. revert content. induction n as [|n IH]; intros s; simpl; [constructor|].
  destruct (cue_file_at s) as [[name rest]|] eqn:E.
  - apply cue_file_at_shorter in E as [_ [H1 H2]]. constructor; [|apply IH].
    split; [exact H1|]. apply sforall_not_in. exact H2.
  - destruct s; [constructor|apply IH].
Qed.

Lemma word_char_not_space : forall c, is_word_char c = true -> is_space c = false.
Proof. char_cases. Qed.

Lemma plus_run_one : forall p a c r, p a = true -> p c = false ->
  plus_run p (String a (String c r)) = Some (String c r).
Proof. intros p a c r Ha Hc. unfold plus_run. simpl. rewrite Ha, Hc. reflexivity. Qed.

Lemma cue_refs_line : forall keyword name type more,
  lower keyword = "file" -> name <> EmptyString -> in_chars dquote name = false ->
  type <> EmptyString -> sforall is_word_char type = true ->
  cue_refs (cue_file_line keyword name type ++ more) = name :: cue_refs more.
Proof.
  intros keyword name type more Hk Hn Hq Ht Hw.
  assert (E : cue_file_line keyword name type ++ more =
    keyword ++ String " " (String dquote (name ++ String dquote
      (String " " (type ++ String (ascii_of_nat 10) more))))).
  { unfold cue_file_line, newline. rewrite string_app_assoc. f_equal. cbn [append].
    rewrite string_app_assoc. cbn [append]. rewrite string_app_assoc. reflexivity. }
  assert (Hat : cue_file_at (cue_file_line keyword name type ++ more)
                = Some (name, String (ascii_of_nat 10) more)).
  { rewrite E. unfold cue_file_at. rewrite <- Hk, ci_prefix_lower.
    rewrite plus_run_one by reflexivity. rewrite Ascii.eqb_refl.
    rewrite span_app_stop by (try apply sforall_not_in; first [exact Hq|reflexivity]).
    destruct name as [|n0 name]; [congruence|].
    destruct type as [|t0 type]; [congruence|].
    simpl in Hw. apply andb_prop in Hw as [Hw0 Hw].
    change (String t0 type ++ String (ascii_of_nat 10) more)
      with (String t0 (type ++ String (ascii_of_nat 10) more)).
    rewrite plus_run_one by (first [reflexivity|exact (word_char_not_space t0 Hw0)]).
    change (String t0 (type ++ String (ascii_of_nat 10) more))
      with (String t0 type ++ String (ascii_of_nat 10) more).
    rewrite span_app_stop by (simpl; rewrite ?Hw0, ?Hw; reflexivity).
    reflexivity. }
  unfold cue_refs at 1. remember (String.length (cue_file_line keyword name type ++ more)) as L.
  assert (HL : String.length (String (ascii_of_nat 10) more) < L).
  { pose proof Hat as H. apply cue_file_at_shorter in H as [H _]. lia. }
  simpl cue_refs_aux. rewrite Hat. f_equal.
  destruct L as [|L]; [lia|]. simpl cue_refs_aux. simpl in HL.
  apply cue_refs_aux_fuel; simpl; lia.
Qed.

Lemma cue_refs_file_lines : forall lines : list (string * string * string),
  (forall keyword name type, In (keyword, name, type) lines ->
     lower keyword = "file" /\ name <> EmptyString /\ in_chars dquote name = false /\
     type <> EmptyString /\ sforall is_word_char type = true) ->
  cue_refs (String.concat EmptyString
              (map (fun '(keyword, name, type) => cue_file_line keyword name type) lines))
  = map (fun '(_, name, _) => name) lines.
Proof.
  induction lines as [|[[k n] t] lines IH]; intros H; [reflexivity|].
  simpl map. rewrite concat_empty_cons.
  destruct (H k n t (or_introl eq_refl)) as (H1 & H2 & H3 & H4 & H5).
  rewrite cue_refs_line by assumption. f_equal.
  apply IH. intros k' n' t' Hin. apply H. right. exact Hin.
Qed.

(** Every track [simple_cue_tracks] returns exists and is the resolved
    path of a non-empty name without double quotes; an unreadable cue sheet
    gives no track. *)
Theorem simple_cue_tracks_names : forall path_exists resolve content,
  simple_cue_tracks path_exists resolve None = [] /\
  (forall t, In t (simple_cue_tracks path_exists resolve content) ->
     path_exists t = true /\
     exists name, t = resolve name /\ name <> EmptyString /\ in_chars dquote name = false).
Proof.
  intros path_exists resolve content. split; [reflexivity|].
  intros t Ht. destruct content as [text|]; [|destruct Ht].
  simpl in Ht. apply filter_In in Ht as [Ht Hp]. split; [exact Hp|].
  apply in_map_iff in Ht as [name [<- Hn]]. exists name. split; [reflexivity|].
  pose proof (cue_refs_names text) as H. rewrite Forall_forall in H. exact (H name Hn).
Qed.

(** A cue sheet made of lines [FILE <quote>name<quote> type] (the keyword
    in any case, a non-empty name without quotes, a word as type) yields
    the resolved names of its lines that exist, in order. *)
Theorem simple_cue_tracks_file_lines : forall path_exists resolve
  (lines : list (string * string * string)),
  (forall keyword name type, In (keyword, name, type) lines ->
     lower keyword = "file" /\ name <> EmptyString /\ in_chars dquote name = false /\
     type <> EmptyString /\ sforall is_word_char type = true) ->
  simple_cue_tracks path_exists resolve
    (Some (String.concat EmptyString
             (map (fun '(keyword, name, type) => cue_file_line keyword name type) lines)))
  = filter path_exists (map resolve (map (fun '(_, name, _) => name) lines)).
Proof.
  intros path_exists resolve lines H. simpl. rewrite cue_refs_file_lines by exact H.
  reflexivity.
Qed.

Lemma simple_cue_tracks_file_lines_witness :
  let lines := [("FILE", "01 Side A.flac", "WAVE"); ("file", "02 Side B.flac", "WAVE")] in
  (forall keyword name type, In (keyword, name, type) lines ->
     lower keyword = "file" /\ name <> EmptyString /\ in_chars dquote name = false /\
     type <> EmptyString /\ sforall is_word_char type = true) /\
  simple_cue_tracks (fun p => negb (String.eqb p "/music/A/02 Side B.flac"))
    (fun name => "/music/A/" ++ name)
    (Some (String.concat EmptyString
             (map (fun '(keyword, name, type) => cue_file_line keyword name type) lines)))
  = ["/music/A/01 Side A.flac"].
Proof.
  intros lines.
  assert (H : forall keyword name type, In (keyword, name, type) lines ->
     lower keyword = "file" /\ name <> EmptyString /\ in_chars dquote name = false /\
     type <> EmptyString /\ sforall is_word_char type = true).
  { intros k n t [E|[E|[]]]; injection E as <- <- <-;
      repeat split; try discriminate; vm_compute; reflexivity. }
  split; [exact H|].
  rewrite (simple_cue_tracks_file_lines _ _ lines H). vm_compute. reflexivity.
Defined.

(** ** Library folders: properties *)

Lemma alnum_lower : forall c, is_alnum (to_lower c) = true -> is_alnum c = true.
Proof. char_cases. Qed.

Lemma alnum_not_space : forall c, is_alnum c = true -> is_space c = false.
Proof. char_cases. Qed.

Lemma alnum_not_sep : forall c, is_alnum c = true -> (Ascii.eqb c "-" || Ascii.eqb c "_") = false.
Proof. char_cases. Qed.

Lemma sforall_alnum_lower : forall k, sforall is_alnum (lower k) = true -> sforall is_alnum k = true.
Proof.
  induction k as [|c k IH]; simpl; [reflexivity|].
  intros H. apply andb_prop in H as [Hc Hk]. rewrite (alnum_lower c Hc), IH by exact Hk.
  reflexivity.
Qed.

Lemma strip_no_space : forall s, sforall is_alnum s = true -> strip s = s.
Proof.
  intros s H. unfold strip.
  assert (Hl : lstrip s = s).
  { destruct s as [|c r]; [reflexivity|]. simpl in H. apply andb_prop in H as [Hc _].
    simpl. rewrite (alnum_not_space c Hc). reflexivity. }
  rewrite Hl. clear Hl. induction s as [|c r IH]; [reflexivity|].
  simpl in H. apply andb_prop in H as [Hc Hr]. simpl.
  rewrite (alnum_not_space c Hc), IH by exact Hr. reflexivity.
Qed.

(** A leaf folder named by a disc keyword, in any case, directly followed
    by letters or digits (as in Discipline, Tapestry or Sidewinder) is
    taken for a disc subfolder: the album becomes its parent folder and the
    artist the folder above that. *)
Theorem disc_keyword_folder : forall pre artist album keyword w,
  In (lower keyword) disc_keywords -> w <> EmptyString -> sforall is_alnum w = true ->
  folder_artist_album (pre ++ [artist; album; keyword ++ w]) = (artist, album).
Proof.
  intros pre artist album keyword w Hk Hw Ha.
  assert (Hkw : sforall is_alnum keyword = true).
  { apply sforall_alnum_lower.
    assert (Hall : forall k, In k disc_keywords -> sforall is_alnum k = true)
      by (intros k Hin; repeat destruct Hin as [<-|Hin]; first [reflexivity|destruct Hin]).
    apply Hall, Hk. }
  unfold folder_artist_album. rewrite rev_app_distr. cbn [rev List.app].
  rewrite strip_no_space by (rewrite sforall_app, Hkw, Ha; reflexivity).
  assert (Hd : is_disc_folder (keyword ++ w) = true).
  { unfold is_disc_folder. apply existsb_exists. exists (lower keyword). split; [exact Hk|].
    rewrite ci_prefix_lower. unfold disc_tail_ok.
    destruct w as [|c w']; [congruence|]. simpl in Ha. apply andb_prop in Ha as [Hc Hw'].
    apply orb_true_iff. right. simpl lstrip. rewrite (alnum_not_space c Hc).
    rewrite (alnum_not_sep c Hc).
    rewrite span_all by (simpl; rewrite Hc, Hw'; reflexivity). reflexivity. }
  rewrite Hd. reflexivity.
Qed.

Lemma disc_keyword_folder_witness :
  In (lower "Disc") disc_keywords /\ "ipline" <> EmptyString /\ sforall is_alnum "ipline" = true /\
  folder_artist_album (["/"; "music"] ++ ["Prog"; "King Crimson"; "Disc" ++ "ipline"])
    = ("Prog", "King Crimson").
Proof.
  assert (H1 : In (lower "Disc") disc_keywords) by (vm_compute; tauto).
  assert (H2 : "ipline" <> EmptyString) by discriminate.
  assert (H3 : sforall is_alnum "ipline" = true) by reflexivity.
  split; [exact H1|split; [exact H2|split; [exact H3|]]].
  exact (disc_keyword_folder ["/"; "music"] "Prog" "King Crimson" "Disc" "ipline" H1 H2 H3).
Defined.
